(** * edgedb-go: borrow guard, pool handle and error model

    A shallow embedding of [borrow.go], [error.go] and the pooled
    connection handle, with the properties of their specification.

    Conventions.
    - A Go [string] is a sequence of bytes: Rocq's [string] (a list of
      8-bit [ascii]) is exactly that; [String.length] is Go's [len].
    - A Go [int] is 64 bits wide; arithmetic on it is written on [Z] with
      the wrap-around [wrap64] spelled out.
    - A Go [error] interface value may be [nil]: it is an [option error].
    - A function that may panic returns an [outcome].
    - External collaborators (the pool, the wrapped connection, the base
      connection's flows, the classifiers of other packages) are fields of
      type classes; calls to them are recorded in a history. *)

From Stdlib Require Import ZArith NArith String Ascii List Lia Bool DecimalString.
From stdpp Require Import base option list gmap.
Import ListNotations.

Local Open Scope Z_scope.

(* ===================================================================== *)
(** ** Panics *)
(* ===================================================================== *)

Inductive panicValue : Type :=
| UnexpectedReason (r : string)      (* panic(fmt.Sprintf("unexpected reason: %q", r)) *)
| NotBorrowed                        (* panic("not currently borrowed, can not unborrow") *)
| AtoiFailed (s : string)            (* panic(err) in atoiOrPanic *)
| IndexOutOfRange (i : Z) (len : Z)  (* runtime error: index out of range *)
| SliceOutOfRange (i : Z) (len : Z). (* runtime error: slice bounds out of range *)

Inductive outcome (A : Type) : Type :=
| Ret (a : A)
| Panic (p : panicValue).
Arguments Ret {A} a.
Arguments Panic {A} p.

#[export] Instance outcome_ret : MRet outcome := fun _ a => Ret a.
#[export] Instance outcome_bind : MBind outcome := fun _ _ k m =>
  match m with
  | Ret a => k a
  | Panic p => Panic p
  end.

Definition returns {A} (m : outcome A) : Prop := exists a, m = Ret a.
Definition panics {A} (m : outcome A) : Prop := exists p, m = Panic p.

(* ===================================================================== *)
(** ** The parts of Go's standard library the code calls *)
(* ===================================================================== *)

Module GoLib.

Definition minInt : Z := - 2 ^ 63.
Definition maxInt : Z := 2 ^ 63 - 1.

(** Two's complement wrap-around of a 64-bit [int]. *)
Definition wrap64 (z : Z) : Z := (z + 2 ^ 63) mod 2 ^ 64 - 2 ^ 63.

Definition byteOf (a : ascii) : N := N_of_ascii a.

Definition len (s : string) : Z := Z.of_nat (String.length s).

Definition newline : ascii := ascii_of_N 10.
Definition tab : ascii := ascii_of_N 9.
Definition space : ascii := ascii_of_N 32.

(** [strconv.Atoi]: an optional sign, then one or more decimal digits, and
    the value must fit an [int]. *)
Definition isDigit (a : ascii) : bool :=
  ((48 <=? byteOf a) && (byteOf a <=? 57))%N.

Fixpoint parseDigits (s : string) (acc : Z) : option Z :=
  match s with
  | EmptyString => Some acc
  | String a r =>
      if isDigit a
      then parseDigits r (10 * acc + (Z.of_N (byteOf a) - 48))
      else None
  end.

Definition Atoi (s : string) : option Z :=
  let '(neg, body) :=
    match s with
    | String a r =>
        if Ascii.eqb a "-" then (true, r)
        else if Ascii.eqb a "+" then (false, r)
        else (false, s)
    | EmptyString => (false, s)
    end in
  match body with
  | EmptyString => None
  | _ =>
      match parseDigits body 0 with
      | None => None
      | Some n =>
          let v := if (neg : bool) then - n else n in
          if (minInt <=? v) && (v <=? maxInt) then Some v else None
      end
  end.

(** [strings.Split(s, sep)] for a one-byte separator: always one more
    field than there are separators. *)
Fixpoint Split (s : string) (sep : ascii) : list string :=
  match s with
  | EmptyString => [EmptyString]
  | String a r =>
      if Ascii.eqb a sep then EmptyString :: Split r sep
      else match Split r sep with
           | l :: ls => String a l :: ls
           | [] => [String a EmptyString]
           end
  end.

(** [strings.ReplaceAll(s, old, new)] for one-byte [old] and [new]. *)
Fixpoint ReplaceAll (s : string) (old new : ascii) : string :=
  match s with
  | EmptyString => EmptyString
  | String a r =>
      String (if Ascii.eqb a old then new else a) (ReplaceAll r old new)
  end.

(** [strings.Repeat(s, count)] for a one-byte [s]. *)
Fixpoint Repeat (a : ascii) (count : nat) : string :=
  match count with
  | O => EmptyString
  | S n => String a (Repeat a n)
  end.

(** [s[:hi]] panics unless [0 <= hi <= len(s)]. *)
Fixpoint prefix (s : string) (n : nat) : string :=
  match n, s with
  | S k, String a r => String a (prefix r k)
  | _, _ => EmptyString
  end.

Definition sliceTo (s : string) (hi : Z) : outcome string :=
  if (0 <=? hi) && (hi <=? len s)
  then Ret (prefix s (Z.to_nat hi))
  else Panic (SliceOutOfRange hi (len s)).

(** [l[i]] panics unless [0 <= i < len(l)]. *)
Definition index {A} (l : list A) (i : Z) : outcome A :=
  if 0 <=? i
  then match nth_error l (Z.to_nat i) with
       | Some x => Ret x
       | None => Panic (IndexOutOfRange i (Z.of_nat (length l)))
       end
  else Panic (IndexOutOfRange i (Z.of_nat (length l))).

(** [%v] of an [int]. *)
Definition itoa (z : Z) : string := NilEmpty.string_of_int (Z.to_int z).

(** *** [unicode/utf8] *)

Definition RuneSelf : N := 0x80.
Definition locb : N := 0x80.
Definition hicb : N := 0xBF.
Definition xx : N := 0xF1.
Definition as_ : N := 0xF0.
Definition s1 : N := 0x02.
Definition s2 : N := 0x13.
Definition s3 : N := 0x03.
Definition s4 : N := 0x23.
Definition s5 : N := 0x34.
Definition s6 : N := 0x04.
Definition s7 : N := 0x44.

(** The table [first]: information about the first byte of an encoding. *)
Definition first (c : N) : N :=
  (if c <? 0x80 then as_
   else if c <? 0xC2 then xx
   else if c <? 0xE0 then s1
   else if c =? 0xE0 then s2
   else if c <? 0xED then s3
   else if c =? 0xED then s4
   else if c <? 0xF0 then s3
   else if c =? 0xF0 then s5
   else if c <? 0xF4 then s6
   else if c =? 0xF4 then s7
   else xx)%N.

Definition acceptRanges (i : N) : N * N :=
  match i with
  | 0%N => (locb, hicb)
  | 1%N => (0xA0, hicb)%N
  | 2%N => (locb, 0x9F)%N
  | 3%N => (0x90, hicb)%N
  | 4%N => (locb, 0x8F)%N
  | _ => (0, 0)%N
  end.

Definition byteAt (s : list N) (i : nat) : N := nth i s 0%N.

(** One iteration of the loop of [RuneCountInString] at the bytes [s]
    that remain: by how much [i] advances. *)
Definition stepSize (s : list N) : nat :=
  match s with
  | [] => 0
  | c :: _ =>
      if (c <? RuneSelf)%N then 1
      else
        let x := first c in
        if (x =? xx)%N then 1
        else
          let size := N.to_nat (N.land x 7) in
          if (length s <? size)%nat then 1
          else
            let '(lo, hi) := acceptRanges (N.shiftr x 4) in
            if ((byteAt s 1 <? lo) || (hi <? byteAt s 1))%N then 1
            else if (size =? 2)%nat then size
            else if ((byteAt s 2 <? locb) || (hicb <? byteAt s 2))%N then 1
            else if (size =? 3)%nat then size
            else if ((byteAt s 3 <? locb) || (hicb <? byteAt s 3))%N then 1
            else size
  end%nat.

(** The loop [for i := 0; i < ns; n++ { ...; i += size }]: [skip] is the
    number of bytes still to jump over before the next iteration. *)
Fixpoint runeCountFrom (skip : nat) (s : list N) : nat :=
  match s with
  | [] => O
  | _ :: r =>
      match skip with
      | O => S (runeCountFrom (stepSize s - 1) r)
      | S k => runeCountFrom k r
      end
  end.

Definition bytes (s : string) : list N := map byteOf (list_ascii_of_string s).

Definition RuneCountInString (s : string) : nat := runeCountFrom 0 (bytes s).

End GoLib.

(* ===================================================================== *)
(** ** error.go *)
(* ===================================================================== *)

Module ErrorModel.
Import GoLib.

(** The error values of the package. [interfaceError] and [noDataError]
    are the struct literals the code builds; [codeError code msg] stands
    for the value [errorFromCode(code, msg)] returns; [foreignError] is an
    error of another package (network, context, ...). The slice of a
    [wrappedManyError] is only ever filled by [wrapAll], with non-nil
    errors. *)
#[warnings="-register-all"] Inductive error : Type :=
| interfaceError (msg : string)
| noDataError (msg : string)
| codeError (code : N) (msg : string)
| foreignError (id : N)
| wrappedManyError (msg : string) (errs : list error).

(** A Go [error] interface value: [None] is [nil]. *)
Abbreviation goerror := (option error).

Definition errZeroResults : goerror := Some (noDataError "zero results").

(** Modelled from the spec: [errorFromCode] is generated code of the
    package that is not among the source files. The spec has it map the
    numeric code to a category- and tag-bearing error value carrying the
    message it is given; the value is kept symbolic. *)
Definition errorFromCode (code : N) (msg : string) : goerror :=
  Some (codeError code msg).

(** The [Error()] methods of the error types other than
    [wrappedManyError] are not in the source files. *)
Class LeafErrors := { leafError : error -> string }.

Definition Error `{LeafErrors} (e : error) : string :=
  match e with
  | wrappedManyError msg _ => msg
  | _ => leafError e
  end.

(** firstError returns the first non nil error or nil. *)
Definition firstError (a b : goerror) : goerror :=
  match a with
  | Some _ => a
  | None => b
  end.

Definition hint : N := 0x0001.
Definition positionStart : N := 0xfff1.
Definition lineStart : N := 0xfff3.

Definition atoiOrPanic (s : string) : outcome Z :=
  match Atoi s with
  | Some i => Ret i
  | None => Panic (AtoiFailed s)
  end.

Record position := { lineNo : Z; byteNo : Z }.

Definition zeroPosition : position := {| lineNo := 0; byteNo := 0 |}.

Definition positionFromHeaders (headers : gmap N string)
  : outcome (position * bool) :=
  match headers !! lineStart with
  | None => Ret (zeroPosition, false)
  | Some lineNoS =>
      match headers !! positionStart with
      | None => Ret (zeroPosition, false)
      | Some byteNoS =>
          l ← atoiOrPanic lineNoS;
          b ← atoiOrPanic byteNoS;
          Ret ({| lineNo := wrap64 (l - 1); byteNo := b |}, true)
      end
  end.

(** What the [buff.Reader] yields for an error response, in the order
    [decodeError] pops it: the severity byte, the code, the message, and
    the (key, value) pairs of the headers (their count is the length of
    the list). *)
Record errorResponse := {
  severity : N;
  code : N;
  message : string;
  headerPairs : list (N * string)
}.

(** The loop [headers[r.PopUint16()] = r.PopString()]. *)
Definition readHeaders (pairs : list (N * string)) : gmap N string :=
  fold_left (fun m kv => <[kv.1 := kv.2]> m) pairs ∅.

(** The loop [for i := 0; i < pos.lineNo; i++ { pos.byteNo -= 1 + len(lines[i]) }];
    it runs after [lines[pos.lineNo]] was read, so every [lines[i]] exists.
    The length of a string is far below [maxInt]: one more does not wrap;
    the subtraction from the header's value may. *)
Definition skipLines (lines : list string) (lineNo : Z) (byteNo : Z) : Z :=
  fold_left (fun b l => wrap64 (b - (1 + len l)))
            (firstn (Z.to_nat lineNo) lines) byteNo.

Definition nl : string := String newline EmptyString.

(** The target line as it is printed, and [runeCount]. *)
Definition locateCaret (query : string) (pos : position)
  : outcome (string * nat) :=
  let lines := Split query newline in
  line0 ← index lines (lineNo pos);
  let line := ReplaceAll line0 tab space in
  let byteNo' := skipLines lines (lineNo pos) (byteNo pos) in
  pre ← sliceTo line byteNo';
  Ret (line, RuneCountInString pre).

(** [fmt.Sprintf] with the format of [decodeError]: a newline, "query:",
    two numbers around a colon, two newlines, the line, a newline, the
    padding, a caret and a space, the hint. *)
Definition renderPosition (lineNo1 col1 : Z) (line padding hintmsg : string)
  : string :=
  (nl ++ "query:" ++ itoa lineNo1 ++ ":" ++ itoa col1 ++ nl ++ nl
      ++ line ++ nl ++ padding ++ "^ " ++ hintmsg)%string.

(** The value of [msg] when [decodeError] reaches its last line. *)
Definition positionedMessage (headers : gmap N string) (query msg : string)
    (pos : position) : outcome string :=
  let hintmsg := default "error"%string (headers !! hint) in
  '(line, runeCount) ← locateCaret query pos;
  let padding := Repeat space runeCount in
  Ret (msg ++ renderPosition (1 + lineNo pos) (1 + Z.of_nat runeCount)
                             line padding hintmsg)%string.

Definition decodeError (r : errorResponse) (query : string) : outcome goerror :=
  let headers := readHeaders (headerPairs r) in
  '(pos, ok) ← positionFromHeaders headers;
  if negb ok then Ret (errorFromCode (code r) (message r))
  else
    msg ← positionedMessage headers query (message r) pos;
    Ret (errorFromCode (code r) msg).

(** *** wrappedManyError *)

(** [errors.Is] and [errors.As] of the standard library, applied to a
    constituent: they depend on the methods of the constituent's type.
    [errors_As e t = Some v] stands for: [v] was stored in [*t] and [true]
    was returned. *)
Class ErrorsPkg := {
  asTarget : Type;
  asValue : Type;
  errors_Is : error -> goerror -> bool;
  errors_As : error -> asTarget -> option asValue
}.

(** The method [Is] of [wrappedManyError], on the receiver's [errs]; the second
    component lists the constituents [errors.Is] was called on, in call
    order. *)
Fixpoint wrappedManyError_Is `{ErrorsPkg} (errs : list error) (target : goerror)
  : bool * list error :=
  match errs with
  | [] => (false, [])
  | err :: rest =>
      if errors_Is err target then (true, [err])
      else let '(b, log) := wrappedManyError_Is rest target in (b, err :: log)
  end.

(** The method [As] of [wrappedManyError], likewise. *)
Fixpoint wrappedManyError_As `{ErrorsPkg} (errs : list error) (target : asTarget)
  : option asValue * list error :=
  match errs with
  | [] => (None, [])
  | err :: rest =>
      match errors_As err target with
      | Some v => (Some v, [err])
      | None => let '(b, log) := wrappedManyError_As rest target in (b, err :: log)
      end
  end.

(** The first loop of [wrapAll]: [err.errs = append(err.errs, e)] for
    every non-nil [e]. *)
Definition collectErrs (errs : list goerror) : list error :=
  fold_left (fun acc e => match e with
                          | Some x => acc ++ [x]
                          | None => acc
                          end) errs [].

Definition wrapAll `{LeafErrors} (errs : list goerror) : goerror :=
  let es := collectErrs errs in
  match es with
  | [] => None
  | [e] => Some e
  | e0 :: rest =>
      let msg := fold_left (fun m e => (m ++ "; " ++ Error e)%string)
                           rest (Error e0) in
      Some (wrappedManyError msg es)
  end.

End ErrorModel.

(* ===================================================================== *)
(** ** borrow.go *)
(* ===================================================================== *)

Module Borrow.
Import ErrorModel.

(** Pointers to collaborators and opaque arguments are plain tokens. *)
Definition baseConnPtr : Type := N.
Definition context : Type := N.
Definition value : Type := N.

Abbreviation msgHeaders := (gmap N string).

Record sfQuery := { sf_cmd : string; sf_headers : msgHeaders }.

(** Modelled from the spec: the type [gfQuery] is declared outside the
    source files; a granular-flow query carries the requested shape (the
    method), the command, the destination, the arguments and the headers. *)
Record gfQuery := {
  gf_method : string;
  gf_cmd : string;
  gf_out : value;
  gf_args : list value;
  gf_headers : msgHeaders
}.

(** A call that reached the base connection. *)
Inductive flowCall : Type :=
| ScriptFlowCall (conn : baseConnPtr) (ctx : context) (q : sfQuery)
| GranularFlowCall (conn : baseConnPtr) (ctx : context) (q : gfQuery).

(** The base connection's two flows (their result may depend on all that
    was sent before) and the two constants of the header set. *)
Class BaseConn := {
  baseConn_scriptFlow : list flowCall -> baseConnPtr -> context -> sfQuery -> goerror;
  baseConn_granularFlow : list flowCall -> baseConnPtr -> context -> gfQuery -> goerror;
  AllowCapabilities : N;
  noTxCapabilities : string
}.

Record borrowableConn := { baseConn : baseConnPtr; reason : string }.

Definition setReason (c : borrowableConn) (r : string) : borrowableConn :=
  {| baseConn := baseConn c; reason := r |}.

Definition transactionMsg : string :=
  ("The connection is borrowed for a transaction. " ++
   "Use the methods on the transaction object instead.")%string.

Definition subtransactionMsg : string :=
  ("The transaction is borrowed for a subtransaction. " ++
   "Use the methods on the subtransaction object instead.")%string.

(** Every method returns the receiver as it is left, then its results. *)
Definition borrow (c : borrowableConn) (r : string)
  : outcome (borrowableConn * (option baseConnPtr * goerror)) :=
  if String.eqb (reason c) "" then
    if String.eqb r "transaction" || String.eqb r "subtransaction"
    then Ret (setReason c r, (Some (baseConn c), None))
    else Panic (UnexpectedReason r)
  else if String.eqb (reason c) "transaction" then
    Ret (c, (None, Some (interfaceError transactionMsg)))
  else if String.eqb (reason c) "subtransaction" then
    Ret (c, (None, Some (interfaceError subtransactionMsg)))
  else Panic (UnexpectedReason (reason c)).

Definition unborrow (c : borrowableConn) : outcome borrowableConn :=
  if String.eqb (reason c) "" then Panic NotBorrowed
  else Ret (setReason c "").

Definition assertUnborrowed (c : borrowableConn)
  : outcome (borrowableConn * goerror) :=
  if String.eqb (reason c) "" then Ret (c, None)
  else if String.eqb (reason c) "transaction" then
    Ret (c, Some (interfaceError transactionMsg))
  else if String.eqb (reason c) "subtransaction" then
    Ret (c, Some (interfaceError subtransactionMsg))
  else Panic (UnexpectedReason (reason c)).

Section Facade.
Context `{BaseConn}.

Definition headers (c : borrowableConn) : msgHeaders :=
  {[ AllowCapabilities := noTxCapabilities ]}.

Definition scriptFlow (c : borrowableConn) (ctx : context) (q : sfQuery)
    (sent : list flowCall)
  : outcome (borrowableConn * list flowCall * goerror) :=
  '(c, e) ← assertUnborrowed c;
  match e with
  | Some _ => Ret (c, sent, e)
  | None =>
      Ret (c, sent ++ [ScriptFlowCall (baseConn c) ctx q],
           baseConn_scriptFlow sent (baseConn c) ctx q)
  end.

Definition granularFlow (c : borrowableConn) (ctx : context) (q : gfQuery)
    (sent : list flowCall)
  : outcome (borrowableConn * list flowCall * goerror) :=
  '(c, e) ← assertUnborrowed c;
  match e with
  | Some _ => Ret (c, sent, e)
  | None =>
      Ret (c, sent ++ [GranularFlowCall (baseConn c) ctx q],
           baseConn_granularFlow sent (baseConn c) ctx q)
  end.

Definition Execute (c : borrowableConn) (ctx : context) (cmd : string)
    (sent : list flowCall) :=
  scriptFlow c ctx {| sf_cmd := cmd; sf_headers := headers c |} sent.

(** Modelled from the spec: [runQuery] is a function of the package that
    is not among the source files. By the spec a result-producing
    operation routes to the granular flow of the connection it is given,
    with the shape it was asked for. *)
Definition runQuery (ctx : context) (c : borrowableConn) (method cmd : string)
    (out : value) (args : list value) (sent : list flowCall) :=
  granularFlow c ctx {| gf_method := method; gf_cmd := cmd; gf_out := out;
                        gf_args := args; gf_headers := headers c |} sent.

Definition Query c ctx cmd out args sent :=
  runQuery ctx c "Query" cmd out args sent.
Definition QueryOne c ctx cmd out args sent :=
  runQuery ctx c "QueryOne" cmd out args sent.
Definition QueryJSON c ctx cmd out args sent :=
  runQuery ctx c "QueryJSON" cmd out args sent.
Definition QueryOneJSON c ctx cmd out args sent :=
  runQuery ctx c "QueryOneJSON" cmd out args sent.

End Facade.

End Borrow.

(* ===================================================================== *)
(** ** The pooled connection *)
(* ===================================================================== *)

Module Pool.
Import ErrorModel.

Definition poolPtr : Type := N.
Definition connPtr : Type := N.
Definition context : Type := N.
Definition value : Type := N.
Definition Action : Type := N.

Record poolConn := {
  pool : option poolPtr;
  err : goerror;
  conn : option connPtr
}.

(** The methods of the wrapped connection a handle forwards to. *)
Inductive connMethod : Type :=
| mExecute (ctx : context) (cmd : string)
| mQuery (ctx : context) (cmd : string) (out : value) (args : list value)
| mQueryOne (ctx : context) (cmd : string) (out : value) (args : list value)
| mQueryJSON (ctx : context) (cmd : string) (out : value) (args : list value)
| mQueryOneJSON (ctx : context) (cmd : string) (out : value) (args : list value)
| mTryTx (ctx : context) (action : Action)
| mRetry (ctx : context) (action : Action).

(** What a handle did to its collaborators. *)
Inductive event : Type :=
| PoolRelease (p : poolPtr) (c : option connPtr) (e : goerror)
| ConnCall (c : option connPtr) (m : connMethod).

(** The collaborators: the pool's release routine, the wrapped
    connection (both may answer by all that happened before), the
    classifier of the network package, and, of the package itself, what
    [errors.As(err, &edbErr)] finds in a non-nil error and the [Category]
    method with the category [UnexpectedMessageError]. *)
Class PoolEnv := {
  pool_release : list event -> poolPtr -> option connPtr -> goerror -> goerror;
  conn_call : list event -> option connPtr -> connMethod -> goerror;
  IsPermanentNetErr : goerror -> bool;
  asEdgeDBError : error -> option error;
  Category : error -> string -> bool;
  UnexpectedMessageError : string
}.

Section Handle.
Context `{PoolEnv}.

Definition releasedMsg : string := "connection released more than once".

Definition Release (c : poolConn) (hist : list event)
  : poolConn * list event * goerror :=
  match pool c with
  | None => (c, hist, Some (interfaceError releasedMsg))
  | Some p =>
      let e := pool_release hist p (conn c) (err c) in
      ({| pool := None; err := None; conn := None |},
       hist ++ [PoolRelease p (conn c) (err c)],
       e)
  end.

Definition setErr (c : poolConn) (e : goerror) : poolConn :=
  {| pool := pool c; err := e; conn := conn c |}.

(** [errors.As(err, &edbErr) && edbErr.Category(UnexpectedMessageError)];
    [errors.As] is false on a nil error. *)
Definition isUnexpectedMessage (e : goerror) : bool :=
  match e with
  | None => false
  | Some x =>
      match asEdgeDBError x with
      | Some edbErr => Category edbErr UnexpectedMessageError
      | None => false
      end
  end.

(** checkErr records errors that indicate the connection should be closed
    so that this connection can be recycled when it is released. *)
Definition checkErr (c : poolConn) (e : goerror) : poolConn :=
  if IsPermanentNetErr e then setErr c e
  else if isUnexpectedMessage e then setErr c e
  else c.

(** The common shape of the seven forwarding methods. *)
Definition forward (c : poolConn) (m : connMethod) (hist : list event)
  : poolConn * list event * goerror :=
  let e := conn_call hist (conn c) m in
  (checkErr c e, hist ++ [ConnCall (conn c) m], e).

Definition Execute c ctx cmd := forward c (mExecute ctx cmd).
Definition Query c ctx cmd out args := forward c (mQuery ctx cmd out args).
Definition QueryOne c ctx cmd out args := forward c (mQueryOne ctx cmd out args).
Definition QueryJSON c ctx cmd out args := forward c (mQueryJSON ctx cmd out args).
Definition QueryOneJSON c ctx cmd out args :=
  forward c (mQueryOneJSON ctx cmd out args).
Definition TryTx c ctx action := forward c (mTryTx ctx action).
Definition Retry c ctx action := forward c (mRetry ctx action).

(** A sequence of operations on one handle, with the errors returned. *)
Fixpoint runOps (c : poolConn) (ms : list connMethod) (hist : list event)
  : poolConn * list event * list goerror :=
  match ms with
  | [] => (c, hist, [])
  | m :: rest =>
      let '(c1, h1, e) := forward c m hist in
      let '(c2, h2, es) := runOps c1 rest h1 in
      (c2, h2, e :: es)
  end.

(** [n] calls of [Release] in a row, with the errors returned. *)
Fixpoint releaseMany (n : nat) (c : poolConn) (hist : list event)
  : poolConn * list event * list goerror :=
  match n with
  | O => (c, hist, [])
  | S k =>
      let '(c1, h1, e) := Release c hist in
      let '(c2, h2, es) := releaseMany k c1 h1 in
      (c2, h2, e :: es)
  end.

Definition healthImpairing (e : goerror) : bool :=
  IsPermanentNetErr e || isUnexpectedMessage e.

Definition isPoolRelease (ev : event) : bool :=
  match ev with
  | PoolRelease _ _ _ => true
  | ConnCall _ _ => false
  end.

End Handle.

End Pool.

(* ===================================================================== *)
(** ** Vocabulary of the properties *)
(* ===================================================================== *)

Module Vocabulary.
Import GoLib ErrorModel.

(** [mentions sub s]: [sub] occurs in [s]. *)
Fixpoint mentions (sub s : string) : bool :=
  String.prefix sub s ||
  match s with
  | EmptyString => false
  | String _ r => mentions sub r
  end.

(** The two reasons a connection is borrowed for. *)
Definition borrowReason (r : string) : Prop :=
  r = "transaction"%string \/ r = "subtransaction"%string.

(** The error a borrowed connection answers with. *)
Definition borrowError (r : string) : string :=
  if String.eqb r "transaction" then Borrow.transactionMsg
  else Borrow.subtransactionMsg.

(** A Unicode scalar value: a code point that is not a surrogate. *)
Definition validScalar (c : N) : Prop :=
  (c < 0xD800 \/ 0xE000 <= c < 0x110000)%N.

(** The UTF-8 encoding of a scalar value (RFC 3629), and of a text. *)
Definition encodeRune (c : N) : list N :=
  (if c <? 0x80 then [c]
   else if c <? 0x800 then [0xC0 + c / 64; 0x80 + c mod 64]
   else if c <? 0x10000 then
     [0xE0 + c / 4096; 0x80 + (c / 64) mod 64; 0x80 + c mod 64]
   else
     [0xF0 + c / 262144; 0x80 + (c / 4096) mod 64;
      0x80 + (c / 64) mod 64; 0x80 + c mod 64])%N.

Definition utf8 (cs : list N) : list N := flat_map encodeRune cs.

(** What replacing tabs by spaces does to a byte. *)
Definition retab (n : N) : N := if (n =? 9)%N then 32%N else n.

(** The bytes of the first [k] lines, each with its newline. *)
Definition precedingBytes (lines : list string) (k : nat) : Z :=
  fold_right (fun l acc => 1 + len l + acc) 0 (firstn k lines).

(** The byte offset on line [l] (counted from one) that the position
    header [b] designates in [query]. *)
Definition lineOffset (query : string) (l b : Z) : Z :=
  b - precedingBytes (Split query newline) (Z.to_nat (l - 1)).

(** The headers' values [l] and [b] point inside [query], on [line]. *)
Definition pointsInside (query : string) (l b : Z) (line : string) : Prop :=
  1 <= l /\
  nth_error (Split query newline) (Z.to_nat (l - 1)) = Some line /\
  0 <= lineOffset query l b <= len line.

(** The layout as the specification words it, with the blank line
    between the message and the "query:" line; [claimedLayout] holds when
    the decoded message has that layout, whatever the numbers, the line,
    the padding and the hint are. *)
Definition claimedMessage (msg : string) (lineNo1 col1 : Z)
    (line padding hintmsg : string) : string :=
  (msg ++ nl ++ nl ++ "query:" ++ itoa lineNo1 ++ ":" ++ itoa col1 ++ nl
       ++ line ++ nl ++ padding ++ "^ " ++ hintmsg)%string.

Definition claimedLayout (r : errorResponse) (query : string) : Prop :=
  exists lineNo1 col1 line padding hintmsg,
    decodeError r query =
      Ret (errorFromCode (code r)
             (claimedMessage (message r) lineNo1 col1 line padding hintmsg)).

(** The non-nil errors of a list, in order. *)
Definition nonNil (errs : list goerror) : list error := omap id errs.

(** The elements of [l] up to and including the first that satisfies
    [p]; all of [l] when none does. *)
Fixpoint upToFirst {A} (p : A -> bool) (l : list A) : list A :=
  match l with
  | [] => []
  | x :: r => if p x then [x] else x :: upToFirst p r
  end.

(** The first answer [f] gives along [l]. *)
Fixpoint firstSome {A B} (f : A -> option B) (l : list A) : option B :=
  match l with
  | [] => None
  | x :: r => match f x with
              | Some v => Some v
              | None => firstSome f r
              end
  end.

(** [Error()] of an error value that is its message field. *)
Definition plainText : LeafErrors := {|
  leafError := fun e =>
    match e with
    | interfaceError m | noDataError m | codeError _ m => m
    | _ => "error"%string
    end
|}.

(** A payload with code 1, message "oops" and the given headers. *)
Definition oops (pairs : list (N * string)) : errorResponse :=
  {| severity := 120; code := 1; message := "oops"; headerPairs := pairs |}.

(** The query text "SELECT 1", a newline, "SELECT x". *)
Definition twoSelects : string := ("SELECT 1" ++ nl ++ "SELECT x")%string.

(** Two bytes that encode U+00E9, then a space and "x". *)
Definition accented : string :=
  String (ascii_of_N 0xC3) (String (ascii_of_N 0xA9) " x").

(** A base connection whose flows always succeed. *)
Definition quietBaseConn : Borrow.BaseConn := {|
  Borrow.baseConn_scriptFlow := fun _ _ _ _ => None;
  Borrow.baseConn_granularFlow := fun _ _ _ _ => None;
  Borrow.AllowCapabilities := 0xff04%N;
  Borrow.noTxCapabilities := "none"
|}.

(** The health error a handle holds after operations that returned [es],
    starting from [init]: the last health-impairing one. *)
Definition lastImpairing `{Pool.PoolEnv} (init : goerror) (es : list goerror)
  : goerror :=
  fold_left (fun acc e => if Pool.healthImpairing e then e else acc) es init.

(** The first health-impairing error among [es], if any. *)
Definition firstImpairing `{Pool.PoolEnv} (es : list goerror) : option goerror :=
  List.find Pool.healthImpairing es.

(** "First such error wins", for the operations [ms] on the handle [c]:
    whatever prefix of [ms] has run, the recorded error is the first
    health-impairing error returned so far, if there is one. *)
Definition firstErrorWins `{Pool.PoolEnv} (c : Pool.poolConn)
    (ms : list Pool.connMethod) (hist : list Pool.event) : Prop :=
  forall n first,
    let '(c1, _, es) := Pool.runOps c (firstn n ms) hist in
    firstImpairing es = Some first -> Pool.err c1 = first.

(** A small world: the wrapped connection fails with network error 1 on
    its first call and network error 2 afterwards; network errors are
    permanent; an error built from a code is found by [errors.As], and
    code 0x03010000 is in the category of unexpected messages; the pool
    accepts every release. *)
Definition demoEnv : Pool.PoolEnv := {|
  Pool.pool_release := fun _ _ _ _ => None;
  Pool.conn_call := fun hist _ _ =>
    match hist with
    | [] => Some (foreignError 1)
    | _ => Some (foreignError 2)
    end;
  Pool.IsPermanentNetErr := fun e =>
    match e with
    | Some (foreignError _) => true
    | _ => false
    end;
  Pool.asEdgeDBError := fun e =>
    match e with
    | codeError _ _ => Some e
    | _ => None
    end;
  Pool.Category := fun e cat =>
    match e with
    | codeError c _ => (c =? 0x03010000)%N && String.eqb cat "UnexpectedMessageError"
    | _ => false
    end;
  Pool.UnexpectedMessageError := "UnexpectedMessageError"
|}.

(** The same world with a connection that answers "zero results". *)
Definition noDataEnv : Pool.PoolEnv := {|
  Pool.pool_release := fun _ _ _ _ => None;
  Pool.conn_call := fun _ _ _ => errZeroResults;
  Pool.IsPermanentNetErr := @Pool.IsPermanentNetErr demoEnv;
  Pool.asEdgeDBError := @Pool.asEdgeDBError demoEnv;
  Pool.Category := @Pool.Category demoEnv;
  Pool.UnexpectedMessageError := @Pool.UnexpectedMessageError demoEnv
|}.

(** A handle after its release. *)
Definition released : Pool.poolConn :=
  {| Pool.pool := None; Pool.err := None; Pool.conn := None |}.

Definition demoHandle : Pool.poolConn :=
  {| Pool.pool := Some 1%N; Pool.err := None; Pool.conn := Some 2%N |}.

(** A reason the guard can hold: none, or one of the two borrows. *)
Definition validReason (r : string) : Prop :=
  r = ""%string \/ borrowReason r.

(** Calls on the guard of one connection, and a run of them; the first
    panic ends the run. *)
Inductive guardCall : Type :=
| GBorrow (r : string)
| GUnborrow
| GAssert.

Definition guardStep (c : Borrow.borrowableConn) (g : guardCall)
  : outcome Borrow.borrowableConn :=
  match g with
  | GBorrow r => '(c1, _) ← Borrow.borrow c r; Ret c1
  | GUnborrow => Borrow.unborrow c
  | GAssert => '(c1, _) ← Borrow.assertUnborrowed c; Ret c1
  end.

Fixpoint guardRun (c : Borrow.borrowableConn) (gs : list guardCall)
  : outcome Borrow.borrowableConn :=
  match gs with
  | [] => Ret c
  | g :: rest => c1 ← guardStep c g; guardRun c1 rest
  end.

(** [Execute] for each command in turn, whatever the earlier ones
    returned. *)
Fixpoint executeAll `{Borrow.BaseConn} (c : Borrow.borrowableConn)
    (ctx : Borrow.context) (cmds : list string) (sent : list Borrow.flowCall)
  : outcome (Borrow.borrowableConn * list Borrow.flowCall * list goerror) :=
  match cmds with
  | [] => Ret (c, sent, [])
  | cmd :: rest =>
      '(c1, sent1, e) ← Borrow.Execute c ctx cmd sent;
      '(c2, sent2, es) ← executeAll c1 ctx rest sent1;
      Ret (c2, sent2, e :: es)
  end.

(** The script-flow call [Execute] makes for a command. *)
Definition executeCall `{Borrow.BaseConn} (c : Borrow.borrowableConn)
    (ctx : Borrow.context) (cmd : string) : Borrow.flowCall :=
  Borrow.ScriptFlowCall (Borrow.baseConn c) ctx
    {| Borrow.sf_cmd := cmd;
       Borrow.sf_headers := {[ Borrow.AllowCapabilities := Borrow.noTxCapabilities ]} |}.

(** What is done with a handle: one of the forwarding methods, or
    [Release]; and a series of such calls on one handle, with the errors
    returned. *)
Inductive handleCall : Type :=
| Operate (m : Pool.connMethod)
| DoRelease.

Fixpoint runCalls `{Pool.PoolEnv} (c : Pool.poolConn) (calls : list handleCall)
    (hist : list Pool.event) : Pool.poolConn * list Pool.event * list goerror :=
  match calls with
  | [] => (c, hist, [])
  | call :: rest =>
      let '(c1, h1, e) :=
        match call with
        | Operate m => Pool.forward c m hist
        | DoRelease => Pool.Release c hist
        end in
      let '(c2, h2, es) := runCalls c1 rest h1 in
      (c2, h2, e :: es)
  end.

(** The calls of the pool's release routine in a history. *)
Definition poolReleases (hist : list Pool.event) : list Pool.event :=
  List.filter Pool.isPoolRelease hist.

(** A payload with other header pairs. *)
Definition withHeaders (r : errorResponse) (pairs : list (N * string))
  : errorResponse :=
  {| severity := severity r; code := code r; message := message r;
     headerPairs := pairs |}.

(** The three header ids [decodeError] looks up. *)
Definition knownHeader (k : N) : Prop :=
  k = hint \/ k = positionStart \/ k = lineStart.

(** The number of newlines in a text, and the number (from one) of the
    line that holds the byte at offset [b]. *)
Fixpoint newlinesIn (s : string) : nat :=
  match s with
  | EmptyString => O
  | String a r => if Ascii.eqb a newline then S (newlinesIn r) else newlinesIn r
  end.

Definition lineOfByte (query : string) (b : Z) : Z :=
  1 + Z.of_nat (newlinesIn (prefix query (Z.to_nat b))).

(** All bytes of a text are ASCII. *)
Definition asciiOnly (s : string) : Prop :=
  Forall (fun n => (n < 0x80)%N) (bytes s).

(** A text holds no tab. *)
Fixpoint tabFree (s : string) : bool :=
  match s with
  | EmptyString => true
  | String a r => negb (Ascii.eqb a tab) && tabFree r
  end.

(** The message of a Go error value, when it is not nil. *)
Definition messageOf `{LeafErrors} (e : goerror) : option string :=
  match e with
  | Some x => Some (Error x)
  | None => None
  end.

(** What the printed line shows for a byte of the source line. *)
Definition shown (a : ascii) : ascii := if Ascii.eqb a tab then space else a.

(** [n] spaces. *)
Definition spaces (n : nat) : string :=
  string_of_list_ascii (List.repeat " "%char n).

(** A line with every tab shown as a space. *)
Definition retabbed (s : string) : string :=
  string_of_list_ascii (map shown (list_ascii_of_string s)).

(** Of the scalar values [cs] of a line, how many are encoded wholly
    within its first [off] bytes, and how many begin within them. *)
Fixpoint scalarsEndedBy (cs : list N) (off : nat) : nat :=
  match cs with
  | [] => O
  | c :: rest =>
      if (length (encodeRune c) <=? off)%nat
      then S (scalarsEndedBy rest (off - length (encodeRune c)))
      else O
  end.

Fixpoint scalarsStartedBy (cs : list N) (off : nat) : nat :=
  match cs with
  | [] => O
  | c :: rest =>
      match off with
      | O => O
      | _ => S (scalarsStartedBy rest (off - length (encodeRune c)))
      end
  end.

(** The column as the specification words it, for every payload with
    both position headers: the number of scalar values of the target line
    that precede the byte offset (read either way: wholly before it, or
    begun before it) is the number of spaces before the caret, and the
    column printed is one more. *)
Definition statedColumn (r : errorResponse) (query : string) : Prop :=
  forall lineS posS l b line0 cs,
    readHeaders (headerPairs r) !! lineStart = Some lineS ->
    readHeaders (headerPairs r) !! positionStart = Some posS ->
    Atoi lineS = Some l -> Atoi posS = Some b ->
    nth_error (Split query newline) (Z.to_nat (l - 1)) = Some line0 ->
    bytes line0 = utf8 cs -> Forall validScalar cs ->
    exists n line hintmsg,
      (n = scalarsEndedBy cs (Z.to_nat (lineOffset query l b)) \/
       n = scalarsStartedBy cs (Z.to_nat (lineOffset query l b))) /\
      decodeError r query =
        Ret (errorFromCode (code r)
               (message r ++ nl ++ "query:" ++ itoa l ++ ":"
                  ++ itoa (1 + Z.of_nat n) ++ nl ++ nl
                  ++ line ++ nl ++ spaces n ++ "^ " ++ hintmsg)%string).

(** The three bytes that encode U+20AC. *)
Definition euro : string :=
  String (ascii_of_N 0xE2) (String (ascii_of_N 0x82)
    (String (ascii_of_N 0xAC) EmptyString)).

(** The part of a text after its last newline. *)
Fixpoint lastLineOf (s : string) : string :=
  match s with
  | EmptyString => EmptyString
  | String a r =>
      match newlinesIn r with
      | O => if Ascii.eqb a newline then r else String a r
      | S _ => lastLineOf r
      end
  end.

End Vocabulary.

(* ===================================================================== *)
(** ** Properties of the borrow guard *)
(* ===================================================================== *)

Section BorrowProperties.
Import ErrorModel Borrow Vocabulary.
Local Open Scope string_scope.

Lemma setReason_same (c : borrowableConn) :
  setReason c (reason c) = c.
Proof. by destruct c. Qed.

Lemma borrowReason_cases (r : string) (P : string -> Prop) :
  borrowReason r -> P "transaction" -> P "subtransaction" -> P r.
Proof. by intros [-> | ->]. Qed.

Lemma borrow_unborrowed (c : borrowableConn) (r : string) :
  reason c = "" -> borrowReason r ->
  borrow c r = Ret (setReason c r, (Some (baseConn c), None)).
Proof.
  intros Hc Hr. unfold borrow. rewrite Hc.
  by apply (borrowReason_cases r (fun r => (if "" =? "" then
      if (r =? "transaction") || (r =? "subtransaction") then _ else _
    else _) = _)).
Qed.

Lemma borrow_borrowed (c : borrowableConn) (r r' : string) :
  borrowReason r ->
  borrow (setReason c r) r' =
    Ret (setReason c r, (None, Some (interfaceError (borrowError r)))).
Proof. by intros [-> | ->]. Qed.

Lemma assertUnborrowed_borrowed (c : borrowableConn) :
  borrowReason (reason c) ->
  assertUnborrowed c = Ret (c, Some (interfaceError (borrowError (reason c)))).
Proof. unfold assertUnborrowed. by intros [-> | ->]. Qed.

Lemma borrowError_mentions (r : string) :
  borrowReason r -> mentions r (borrowError r) = true.
Proof. by intros [-> | ->]; vm_compute. Qed.

(** C3: from the unborrowed state a borrow for a transaction or for a
    subtransaction succeeds, records the reason and hands out the
    underlying connection; while borrowed, a further borrow of either kind
    fails, changes nothing, and its error names the blocking borrow (it
    mentions "transaction" when that is the reason); after [unborrow] a
    borrow of either kind succeeds again. *)
Theorem borrow_cycle (c : borrowableConn) (r r' r'' : string) :
  reason c = "" -> borrowReason r -> borrowReason r' -> borrowReason r'' ->
  borrow c r = Ret (setReason c r, (Some (baseConn c), None)) /\
  reason (setReason c r) = r /\
  borrow (setReason c r) r' =
    Ret (setReason c r, (None, Some (interfaceError (borrowError r)))) /\
  mentions r (borrowError r) = true /\
  (r = "transaction" -> mentions "transaction" (borrowError r) = true) /\
  unborrow (setReason c r) = Ret c /\
  borrow c r'' = Ret (setReason c r'', (Some (baseConn c), None)).
Proof.
  intros Hc Hr Hr' Hr''. repeat split.
  - by apply borrow_unborrowed.
  - by apply borrow_borrowed.
  - by apply borrowError_mentions.
  - by intros ->.
  - rewrite <- (setReason_same c) at 2. rewrite Hc.
    by destruct Hr as [-> | ->].
  - by apply borrow_unborrowed.
Qed.

Lemma borrow_cycle_witness :
  let c := {| baseConn := 7%N; reason := "" |} in
  borrow c "transaction" = Ret (setReason c "transaction", (Some 7%N, None)) /\
  borrow (setReason c "transaction") "subtransaction" =
    Ret (setReason c "transaction", (None, Some (interfaceError transactionMsg))) /\
  unborrow (setReason c "transaction") = Ret c /\
  borrow c "subtransaction" = Ret (setReason c "subtransaction", (Some 7%N, None)).
Proof.
  intros c.
  destruct (borrow_cycle c "transaction" "subtransaction" "subtransaction")
    as (H1 & _ & H3 & _ & _ & H6 & H7);
    [reflexivity | by left | by right | by right |].
  repeat split; assumption.
Defined.

Context `{BaseConn}.

(** C4: [assertUnborrowed] never changes the borrow state, whatever it
    answers; and while the connection is borrowed every entry point of the
    facade (the script flow, the granular flow, and through them Execute,
    Query, QueryOne, QueryJSON and QueryOneJSON) returns the borrow error
    at once: the state is unchanged and no call reaches the base
    connection. *)
Theorem borrowed_facade_rejects (c : borrowableConn) (ctx : context)
    (sent : list flowCall) :
  (forall c' e, assertUnborrowed c = Ret (c', e) -> c' = c) /\
  (borrowReason (reason c) ->
   let rejected := Ret (c, sent, Some (interfaceError (borrowError (reason c)))) in
   (forall q, scriptFlow c ctx q sent = rejected) /\
   (forall q, granularFlow c ctx q sent = rejected) /\
   (forall cmd, Execute c ctx cmd sent = rejected) /\
   (forall cmd out args,
      Query c ctx cmd out args sent = rejected /\
      QueryOne c ctx cmd out args sent = rejected /\
      QueryJSON c ctx cmd out args sent = rejected /\
      QueryOneJSON c ctx cmd out args sent = rejected)).
Proof.
  split.
  - intros c' e. unfold assertUnborrowed.
    repeat case_match; congruence.
  - intros Hb rejected.
    assert (Hs : forall q, scriptFlow c ctx q sent = rejected).
    { intros q. unfold scriptFlow. by rewrite assertUnborrowed_borrowed. }
    assert (Hg : forall q, granularFlow c ctx q sent = rejected).
    { intros q. unfold granularFlow. by rewrite assertUnborrowed_borrowed. }
    repeat split; intros; first [apply Hs | apply Hg].
Qed.

(** The other side of the guard: an unborrowed connection passes the
    call on to the base connection, once. *)
Lemma unborrowed_facade_forwards (c : borrowableConn) (ctx : context)
    (sent : list flowCall) :
  reason c = "" ->
  (forall q, scriptFlow c ctx q sent =
     Ret (c, (sent ++ [ScriptFlowCall (baseConn c) ctx q])%list,
          baseConn_scriptFlow sent (baseConn c) ctx q)) /\
  (forall q, granularFlow c ctx q sent =
     Ret (c, (sent ++ [GranularFlowCall (baseConn c) ctx q])%list,
          baseConn_granularFlow sent (baseConn c) ctx q)).
Proof.
  intros Hc.
  assert (Ha : assertUnborrowed c = Ret (c, None))
    by (unfold assertUnborrowed; by rewrite Hc).
  split; intros q; unfold scriptFlow, granularFlow; by rewrite Ha.
Qed.

End BorrowProperties.

Lemma borrowed_facade_rejects_witness :
  let c := {| Borrow.baseConn := 7%N; Borrow.reason := "transaction" |} in
  @Borrow.Execute Vocabulary.quietBaseConn c 0%N "SELECT 1" [] =
    Ret (c, [], Some (ErrorModel.interfaceError Borrow.transactionMsg)).
Proof.
  intros c.
  destruct (@borrowed_facade_rejects Vocabulary.quietBaseConn c 0%N [])
    as [_ Hguard].
  destruct Hguard as (_ & _ & Hexec & _); [by left |].
  apply Hexec.
Defined.

(* ===================================================================== *)
(** ** Properties of the pooled connection *)
(* ===================================================================== *)

Section PoolProperties.
Import ErrorModel Pool Vocabulary.
Context `{PoolEnv}.

Lemma Release_live (c : poolConn) (p : poolPtr) (hist : list event) :
  pool c = Some p ->
  Release c hist =
    (Vocabulary.released, hist ++ [PoolRelease p (conn c) (err c)],
     pool_release hist p (conn c) (err c)).
Proof. intros Hp. unfold Release. by rewrite Hp. Qed.

Lemma Release_inert (hist : list event) :
  Release released hist = (Vocabulary.released, hist, Some (interfaceError releasedMsg)).
Proof. reflexivity. Qed.

Lemma releaseMany_inert (n : nat) (hist : list event) :
  releaseMany n released hist =
    (Vocabulary.released, hist, repeat (Some (interfaceError releasedMsg)) n).
Proof.
  induction n as [| n IH]; [reflexivity |].
  cbn [releaseMany repeat]. rewrite Release_inert. by rewrite IH.
Qed.

Lemma checkErr_fields (c : poolConn) (e : goerror) :
  pool (checkErr c e) = pool c /\ conn (checkErr c e) = conn c /\
  err (checkErr c e) = if healthImpairing e then e else err c.
Proof.
  unfold checkErr, healthImpairing.
  destruct (IsPermanentNetErr e); [done |].
  by destruct (isUnexpectedMessage e).
Qed.

Lemma runOps_fields (ms : list connMethod) :
  forall (c : poolConn) (hist : list event) c1 h1 es,
    runOps c ms hist = (c1, h1, es) ->
    pool c1 = pool c /\ conn c1 = conn c /\
    err c1 = lastImpairing (err c) es /\
    length es = length ms /\
    List.filter isPoolRelease h1 = List.filter isPoolRelease hist.
Proof.
  induction ms as [| m ms IH]; intros c hist c1 h1 es Hrun.
  - cbn in Hrun. by simplify_eq.
  - cbn [runOps] in Hrun. unfold forward in Hrun.
    destruct (runOps _ ms _) as [[c2 h2] es2] eqn:Hrest.
    simplify_eq.
    destruct (IH _ _ _ _ _ Hrest) as (Hp & Hc & He & Hl & Hf).
    destruct (checkErr_fields c (conn_call hist (conn c) m)) as (Hp' & Hc' & He').
    repeat split.
    + congruence.
    + congruence.
    + rewrite He, He'. reflexivity.
    + cbn. by rewrite Hl.
    + rewrite Hf, List.filter_app. cbn. by rewrite app_nil_r.
Qed.

Lemma lastImpairing_none (init : goerror) (es : list goerror) :
  (forall x, x ∈ es -> healthImpairing x = false) ->
  lastImpairing init es = init.
Proof.
  revert init. induction es as [| e es IH]; intros init Hall; [done |].
  cbn. rewrite (Hall e) by left. apply IH. intros x Hx. apply Hall. by right.
Qed.

Lemma lastImpairing_some (init : goerror) (es : list goerror) :
  healthImpairing None = false ->
  (init <> None \/ exists x, x ∈ es /\ healthImpairing x = true) ->
  lastImpairing init es <> None.
Proof.
  intros Hnil. revert init.
  induction es as [| e es IH]; intros init [Hi | (x & Hx & Himp)].
  - done.
  - by apply elem_of_nil in Hx.
  - cbn. apply IH. left. destruct (healthImpairing e) eqn:He; [| done].
    intros ->. congruence.
  - cbn. apply elem_of_cons in Hx as [-> | Hx].
    + rewrite Himp. apply IH. left. intros ->. congruence.
    + apply IH. right. eauto.
Qed.

(** C1: on a handle that holds its pool, [Release] calls the pool's
    release routine once, with the connection and the accumulated health
    error, returns what the routine returned, and clears the three
    fields; every later [Release], whatever happened in between, returns
    the "released more than once" interface error and does not reach the
    pool, so that however many follow, the pool has seen one release. *)
Theorem Release_once (c : poolConn) (p : poolPtr) (hist : list event) :
  pool c = Some p ->
  exists c1 h1,
    Release c hist = (c1, h1, pool_release hist p (conn c) (err c)) /\
    h1 = hist ++ [PoolRelease p (conn c) (err c)] /\
    pool c1 = None /\ conn c1 = None /\ err c1 = None /\
    (forall later,
       Release c1 later = (c1, later, Some (interfaceError releasedMsg))) /\
    (forall n,
       releaseMany n c1 h1 =
         (c1, h1, repeat (Some (interfaceError releasedMsg)) n)).
Proof.
  intros Hp. exists released, (hist ++ [PoolRelease p (conn c) (err c)]).
  split; [by apply Release_live |].
  repeat split; auto using Release_inert, releaseMany_inert.
Qed.

(** C2: on a fresh handle, if one of the operations returned an error the
    classifiers take for a permanent network failure or for one of the
    category of unexpected messages, the following [Release] hands a
    non-nil health error to the pool's release routine; if every
    operation returned nil or an error of another class, it hands nil.
    (The network classifier is assumed not to take nil for a failure.) *)
Theorem Release_reports_health (c : poolConn) (p : poolPtr)
    (ms : list connMethod) (hist : list event) c1 h1 es :
  IsPermanentNetErr None = false ->
  pool c = Some p -> err c = None ->
  runOps c ms hist = (c1, h1, es) ->
  exists health,
    Release c1 h1 =
      (Vocabulary.released, h1 ++ [PoolRelease p (conn c) health],
       pool_release h1 p (conn c) health) /\
    ((exists x, x ∈ es /\ healthImpairing x = true) -> health <> None) /\
    ((forall x, x ∈ es -> healthImpairing x = false) -> health = None).
Proof.
  intros Hnil Hp He Hrun.
  destruct (runOps_fields _ _ _ _ _ _ Hrun) as (Hp1 & Hc1 & He1 & _ & _).
  exists (err c1). split; [| split].
  - rewrite (Release_live c1 p) by congruence. by rewrite Hc1.
  - intros Hex. rewrite He1. apply lastImpairing_some; [| by right].
    unfold healthImpairing. by rewrite Hnil.
  - intros Hall. rewrite He1, lastImpairing_none by done. done.
Qed.

(** C9 (as amended): the recorded health error is the most recent
    health-impairing error returned: an operation that returns such an
    error replaces what was recorded, any other operation leaves the
    record as it is; so after a sequence of operations the handle holds
    the last health-impairing error returned, or what it held before when
    there was none. *)
Theorem last_impairing_error_recorded (c : poolConn) (hist : list event) :
  (forall m, let '(c1, _, e) := forward c m hist in
             err c1 = if healthImpairing e then e else err c) /\
  (forall ms, let '(c1, _, es) := runOps c ms hist in
              err c1 = lastImpairing (err c) es).
Proof.
  split.
  - intros m. cbn. apply checkErr_fields.
  - intros ms. destruct (runOps c ms hist) as [[c1 h1] es] eqn:Hrun.
    by destruct (runOps_fields _ _ _ _ _ _ Hrun) as (_ & _ & He & _).
Qed.

End PoolProperties.

Lemma Release_once_witness :
  @Pool.Release Vocabulary.demoEnv Vocabulary.demoHandle [] =
    (Vocabulary.released, [Pool.PoolRelease 1%N (Some 2%N) None], None) /\
  @Pool.Release Vocabulary.demoEnv Vocabulary.released [Pool.PoolRelease 1%N (Some 2%N) None] =
    (Vocabulary.released, [Pool.PoolRelease 1%N (Some 2%N) None],
     Some (ErrorModel.interfaceError Pool.releasedMsg)).
Proof.
  destruct (@Release_once Vocabulary.demoEnv Vocabulary.demoHandle 1%N [] eq_refl)
    as (c1 & h1 & Hrel & Hh & Hp & Hc & He & Hlater & _).
  assert (c1 = Vocabulary.released) as -> by (destruct c1; cbn in *; by subst).
  subst h1. split; [exact Hrel | apply Hlater].
Defined.

Lemma Release_reports_health_witness :
  (exists health,
     @Pool.Release Vocabulary.demoEnv
       (@Pool.runOps Vocabulary.demoEnv Vocabulary.demoHandle
          [Pool.mExecute 0%N "SELECT 1"] []).1.1
       [Pool.ConnCall (Some 2%N) (Pool.mExecute 0%N "SELECT 1")] =
     (Vocabulary.released,
      [Pool.ConnCall (Some 2%N) (Pool.mExecute 0%N "SELECT 1");
       Pool.PoolRelease 1%N (Some 2%N) health], None) /\
     health <> None) /\
  (exists health,
     @Pool.Release Vocabulary.noDataEnv
       (@Pool.runOps Vocabulary.noDataEnv Vocabulary.demoHandle
          [Pool.mQueryOne 0%N "SELECT 1" 0%N []] []).1.1
       [Pool.ConnCall (Some 2%N) (Pool.mQueryOne 0%N "SELECT 1" 0%N [])] =
     (Vocabulary.released,
      [Pool.ConnCall (Some 2%N) (Pool.mQueryOne 0%N "SELECT 1" 0%N []);
       Pool.PoolRelease 1%N (Some 2%N) health], None) /\
     health = None).
Proof.
  split.
  - destruct (@Release_reports_health Vocabulary.demoEnv Vocabulary.demoHandle 1%N
                [Pool.mExecute 0%N "SELECT 1"] [] _ _ _
                eq_refl eq_refl eq_refl eq_refl) as (health & Hrel & Hbad & _).
    exists health. split; [exact Hrel |].
    apply Hbad. exists (Some (ErrorModel.foreignError 1)).
    split; [by left | reflexivity].
  - destruct (@Release_reports_health Vocabulary.noDataEnv Vocabulary.demoHandle 1%N
                [Pool.mQueryOne 0%N "SELECT 1" 0%N []] [] _ _ _
                eq_refl eq_refl eq_refl eq_refl) as (health & Hrel & _ & Hgood).
    exists health. split; [exact Hrel |].
    apply Hgood. intros x Hx. apply list_elem_of_singleton in Hx as ->.
    reflexivity.
Defined.

(** C9 (as stated) fails: when two operations in a row return different
    permanent network errors, the handle ends up holding the second one,
    not the first. *)
Lemma first_error_does_not_win :
  ~ @Vocabulary.firstErrorWins Vocabulary.demoEnv Vocabulary.demoHandle
      [Pool.mExecute 0%N "SELECT 1"; Pool.mExecute 0%N "SELECT 2"] [].
Proof.
  intros Hwins.
  specialize (Hwins 2%nat (Some (ErrorModel.foreignError 1)) eq_refl).
  discriminate Hwins.
Qed.

(* ===================================================================== *)
(** ** Properties of the aggregate error *)
(* ===================================================================== *)

Section AggregateProperties.
Import GoLib ErrorModel Vocabulary.
Context `{LeafErrors} `{ErrorsPkg}.
Local Open Scope string_scope.

Lemma append_cons (x : ascii) (a b : string) :
  String x a ++ b = String x (a ++ b).
Proof. reflexivity. Qed.

Lemma append_assoc (a b c : string) : (a ++ b) ++ c = a ++ (b ++ c).
Proof.
  induction a as [| x a IH]; [reflexivity |].
  rewrite !append_cons. by rewrite IH.
Qed.

Lemma collectErrs_from (errs : list goerror) (acc : list error) :
  fold_left (fun acc e => match e with
                          | Some x => (acc ++ [x])%list
                          | None => acc
                          end) errs acc
  = (acc ++ nonNil errs)%list.
Proof.
  revert acc. induction errs as [| [e |] errs IH]; intros acc; cbn.
  - by rewrite app_nil_r.
  - rewrite IH. by rewrite <- app_assoc.
  - apply IH.
Qed.

Lemma collectErrs_nonNil (errs : list goerror) :
  collectErrs errs = nonNil errs.
Proof. unfold collectErrs. by rewrite collectErrs_from. Qed.

Lemma join_from (rest : list error) (e : error) (acc : string) :
  fold_left (fun m x => m ++ "; " ++ Error x) rest (acc ++ Error e)
  = acc ++ String.concat "; " (map Error (e :: rest)).
Proof.
  revert e acc. induction rest as [| x rest IH]; intros e acc.
  - reflexivity.
  - cbn [fold_left]. rewrite <- append_assoc, (IH x).
    cbn [map String.concat]. by rewrite !append_assoc.
Qed.

Lemma wrappedManyError_Is_spec (errs : list error) (target : goerror) :
  wrappedManyError_Is errs target =
    (existsb (fun e => errors_Is e target) errs,
     upToFirst (fun e => errors_Is e target) errs).
Proof.
  induction errs as [| e errs IH]; cbn; [done |].
  destruct (errors_Is e target); [done |]. by rewrite IH.
Qed.

Lemma wrappedManyError_As_spec (errs : list error) (target : asTarget) :
  wrappedManyError_As errs target =
    (firstSome (fun e => errors_As e target) errs,
     upToFirst (fun e => bool_decide (is_Some (errors_As e target))) errs).
Proof.
  induction errs as [| e errs IH]; cbn; [done |].
  destruct (errors_As e target) as [v |] eqn:He.
  - rewrite bool_decide_eq_true_2; [done | by eexists].
  - rewrite bool_decide_eq_false_2, IH; [done |]. by intros [? ?].
Qed.

(** C5: [wrapAll] drops the nil errors; when none is left it returns nil,
    when one is left it returns that very error; when two or more are
    left it returns an aggregate over them, in input order, whose message
    is their messages joined by "; ", and whose [Is] and [As] ask the
    constituents one after the other and stop at the first that
    matches. *)
Theorem wrapAll_aggregates (errs : list goerror) :
  match nonNil errs with
  | [] => wrapAll errs = None
  | [e] => wrapAll errs = Some e
  | es =>
      exists agg,
        wrapAll errs = Some agg /\
        agg = wrappedManyError (String.concat "; " (map Error es)) es /\
        Error agg = String.concat "; " (map Error es) /\
        (forall target,
           wrappedManyError_Is es target =
             (existsb (fun e => errors_Is e target) es,
              upToFirst (fun e => errors_Is e target) es)) /\
        (forall target,
           wrappedManyError_As es target =
             (firstSome (fun e => errors_As e target) es,
              upToFirst (fun e => bool_decide (is_Some (errors_As e target))) es))
  end.
Proof.
  unfold wrapAll. rewrite collectErrs_nonNil.
  destruct (nonNil errs) as [| e0 [| e1 rest]]; [done | done |].
  eexists. split; [reflexivity |].
  pose proof (join_from (e1 :: rest) e0 "") as Hjoin.
  change (fold_left (fun m x => m ++ "; " ++ Error x) (e1 :: rest) (Error e0)
          = String.concat "; " (map Error (e0 :: e1 :: rest))) in Hjoin.
  rewrite Hjoin.
  repeat split; auto using wrappedManyError_Is_spec, wrappedManyError_As_spec.
Qed.

End AggregateProperties.

(* ===================================================================== *)
(** ** Strings, 64-bit integers and lines *)
(* ===================================================================== *)

Section TextLemmas.
Import GoLib ErrorModel Vocabulary.

Lemma wrap64_range (z : Z) : minInt <= wrap64 z <= maxInt.
Proof.
  unfold wrap64, minInt, maxInt.
  pose proof (Z.mod_pos_bound (z + 2 ^ 63) (2 ^ 64) eq_refl). lia.
Qed.

Lemma wrap64_small (z : Z) : minInt <= z <= maxInt -> wrap64 z = z.
Proof.
  unfold wrap64, minInt, maxInt. intros Hz.
  rewrite Z.mod_small; lia.
Qed.

Lemma wrap64_sub_l (x y : Z) : wrap64 (wrap64 x - y) = wrap64 (x - y).
Proof.
  unfold wrap64. f_equal.
  replace ((x + 2 ^ 63) mod 2 ^ 64 - 2 ^ 63 - y + 2 ^ 63)
    with ((x + 2 ^ 63) mod 2 ^ 64 - y) by lia.
  replace (x - y + 2 ^ 63) with (x + 2 ^ 63 - y) by lia.
  apply Zminus_mod_idemp_l.
Qed.

(** A value outside the range of [int] by less than [2^64] wraps to a
    value that differs from it by [2^64]. *)
Lemma wrap64_below (z : Z) :
  minInt - 2 ^ 63 <= z < minInt -> wrap64 z = z + 2 ^ 64.
Proof.
  unfold wrap64, minInt. intros Hz.
  replace (z + 2 ^ 63) with ((z + 2 ^ 63 + 2 ^ 64) + (-1) * 2 ^ 64) by lia.
  rewrite Z_mod_plus_full, Z.mod_small; lia.
Qed.

Lemma wrap64_min : wrap64 (minInt - 1) = maxInt.
Proof. reflexivity. Qed.

Lemma len_nonneg (s : string) : 0 <= len s.
Proof. unfold len. lia. Qed.

Lemma len_cons (a : ascii) (s : string) : len (String a s) = 1 + len s.
Proof. unfold len. cbn [String.length]. lia. Qed.

Lemma len_ReplaceAll (s : string) (old new : ascii) :
  len (ReplaceAll s old new) = len s.
Proof.
  induction s as [| a s IH]; [done |].
  cbn [ReplaceAll]. by rewrite !len_cons, IH.
Qed.

Lemma prefix_ReplaceAll (s : string) (old new : ascii) (n : nat) :
  prefix (ReplaceAll s old new) n = ReplaceAll (prefix s n) old new.
Proof.
  revert n. induction s as [| a s IH]; intros [| n]; cbn; try done.
  by rewrite IH.
Qed.

Lemma precedingBytes_nonneg (lines : list string) (k : nat) :
  0 <= precedingBytes lines k.
Proof.
  unfold precedingBytes. revert k.
  induction lines as [| l lines IH]; intros [| k]; cbn; try lia.
  specialize (IH k). pose proof (len_nonneg l). lia.
Qed.

(** The lines of a text and their newlines account for its bytes: up to
    any line, what precedes it and the line itself fit in the text. *)
Lemma Split_bytes (q : string) (k : nat) (line : string) :
  nth_error (Split q newline) k = Some line ->
  precedingBytes (Split q newline) k + len line <= len q.
Proof.
  unfold precedingBytes. revert k line.
  induction q as [| a q IH]; intros k line Hk.
  - destruct k as [| [| k]]; cbn in Hk; simplify_eq. by cbn.
  - cbn [Split] in *. rewrite len_cons. pose proof (len_nonneg q) as Hq.
    destruct (Ascii.eqb a newline).
    + destruct k as [| k]; cbn [nth_error] in Hk; simplify_eq;
        cbn [firstn fold_right]; change (len "") with 0.
      * lia.
      * specialize (IH k line Hk). lia.
    + destruct (Split q newline) as [| l ls] eqn:Hs.
      * destruct k as [| [| k]]; cbn [nth_error] in Hk; simplify_eq.
        cbn [firstn fold_right]. rewrite len_cons. change (len "") with 0. lia.
      * destruct k as [| k]; cbn [nth_error] in Hk; simplify_eq.
        -- specialize (IH 0%nat l eq_refl). cbn [firstn fold_right] in *.
           rewrite len_cons. lia.
        -- specialize (IH (S k) line Hk). cbn [firstn fold_right] in *.
           rewrite len_cons. lia.
Qed.

Lemma Split_length (q : string) :
  Z.of_nat (length (Split q newline)) <= 1 + len q.
Proof.
  induction q as [| a q IH]; [by cbn |].
  cbn [Split]. rewrite len_cons.
  destruct (Ascii.eqb a newline); [cbn [length]; lia |].
  destruct (Split q newline); cbn [length] in *; lia.
Qed.

(** The loop that skips the preceding lines subtracts their bytes, up to
    wrap-around. *)
Lemma skipLines_wrap (lines : list string) (k b : Z) :
  minInt <= b <= maxInt ->
  skipLines lines k b = wrap64 (b - precedingBytes lines (Z.to_nat k)).
Proof.
  unfold skipLines, precedingBytes.
  generalize (firstn (Z.to_nat k) lines) as ls. intros ls. revert b.
  induction ls as [| l ls IH]; intros b Hb.
  - cbn. rewrite Z.sub_0_r. by rewrite wrap64_small.
  - cbn [fold_left fold_right]. rewrite IH by apply wrap64_range.
    rewrite wrap64_sub_l. f_equal. lia.
Qed.

Lemma Atoi_range (s : string) (z : Z) :
  Atoi s = Some z -> minInt <= z <= maxInt.
Proof.
  unfold Atoi. intros Hs. repeat case_match; simplify_eq; lia.
Qed.

Lemma readHeaders_from (pairs : list (N * string)) (m : gmap N string) (k : N) :
  fold_left (fun m kv => <[kv.1 := kv.2]> m) pairs m !! k = None <->
  m !! k = None /\ forall v, (k, v) ∉ pairs.
Proof.
  revert m. induction pairs as [| [k' v'] pairs IH]; intros m.
  - cbn. split; [| tauto]. intros Hm. split; [done |].
    intros v Hv. by apply elem_of_nil in Hv.
  - cbn [fold_left]. rewrite IH, lookup_insert_None. cbn. split.
    + intros [[Hm Hne] Hnot]. split; [done |]. intros v Hv.
      apply elem_of_cons in Hv as [Heq | Hin]; [congruence | by eapply Hnot].
    + intros [Hm Hnot]. split; [split; [done |] |].
      * intros ->. apply (Hnot v'). by left.
      * intros v Hv. apply (Hnot v). by right.
Qed.

Lemma readHeaders_None (pairs : list (N * string)) (k : N) :
  readHeaders pairs !! k = None <-> forall v, (k, v) ∉ pairs.
Proof.
  unfold readHeaders. rewrite readHeaders_from, lookup_empty. tauto.
Qed.

End TextLemmas.

(* ===================================================================== *)
(** ** Counting runes in well-formed UTF-8 *)
(* ===================================================================== *)

Section Utf8Properties.
Import GoLib ErrorModel Vocabulary.

Ltac div_lia := zify; Z.to_euclidean_division_equations; lia.

Ltac decide_tests :=
  repeat match goal with
  | |- context [(?a <? ?b)%N] =>
      first [ rewrite (proj2 (N.ltb_lt a b)) by div_lia
            | rewrite (proj2 (N.ltb_ge a b)) by div_lia ]
  | |- context [(?a =? ?b)%N] =>
      first [ rewrite (proj2 (N.eqb_eq a b)) by div_lia
            | rewrite (proj2 (N.eqb_neq a b)) by div_lia ]
  end.

Ltac eval_const t := let v := eval vm_compute in t in change t with v.

Ltac step_consts :=
  unfold s1, s2, s3, s4, s5, s6, s7, xx, as_, locb, hicb, RuneSelf, byteAt;
  repeat match goal with
  | |- context [N.to_nat (N.land ?a ?b)] =>
      eval_const (N.to_nat (N.land a b))
  | |- context [acceptRanges (N.shiftr ?a ?b)] =>
      eval_const (acceptRanges (N.shiftr a b))
  end;
  cbn [nth Nat.ltb Nat.leb Nat.eqb length].

Ltac step_rune :=
  cbn [app stepSize length]; unfold RuneSelf, first; decide_tests;
  step_consts; decide_tests; try reflexivity.

(** On the encoding of a scalar value the loop advances by exactly the
    bytes of that encoding, whatever follows. *)
Lemma stepSize_encodeRune (c : N) (rest : list N) :
  validScalar c ->
  stepSize (encodeRune c ++ rest) = length (encodeRune c).
Proof.
  intros Hc. unfold encodeRune.
  destruct (N.ltb_spec c 0x80); [by step_rune |].
  destruct (N.ltb_spec c 0x800); [by step_rune |].
  destruct (N.ltb_spec c 0x10000).
  - destruct (N.ltb_spec c 0x1000); [by step_rune |].
    destruct (N.ltb_spec c 0xD000); [by step_rune |].
    destruct (N.ltb_spec c 0xD800); [by step_rune |].
    assert (0xE000 <= c)%N by (unfold validScalar in Hc; lia).
    by step_rune.
  - assert (c < 0x110000)%N by (unfold validScalar in Hc; lia).
    destruct (N.ltb_spec c 0x40000); [by step_rune |].
    destruct (N.ltb_spec c 0x100000); [by step_rune |].
    by step_rune.
Qed.

Lemma encodeRune_cons (c : N) : exists b tl, encodeRune c = b :: tl.
Proof. unfold encodeRune. repeat case_match; eauto. Qed.

Lemma runeCountFrom_skip (l1 l2 : list N) :
  runeCountFrom (length l1) (l1 ++ l2) = runeCountFrom 0 l2.
Proof. induction l1 as [| x l1 IH]; [done | exact IH]. Qed.

Lemma runeCountFrom_utf8 (cs : list N) (rest : list N) :
  Forall validScalar cs ->
  runeCountFrom 0 (utf8 cs ++ rest) = (length cs + runeCountFrom 0 rest)%nat.
Proof.
  induction 1 as [| c cs Hc _ IH]; [done |].
  cbn [utf8 flat_map length]. rewrite <- app_assoc.
  pose proof (stepSize_encodeRune c (flat_map encodeRune cs ++ rest) Hc) as Hstep.
  destruct (encodeRune_cons c) as (b & tl & Hb). rewrite Hb in *.
  cbn [app runeCountFrom]. cbn [app] in Hstep. rewrite Hstep.
  cbn [length]. rewrite Nat.sub_succ, Nat.sub_0_r.
  rewrite runeCountFrom_skip. fold (utf8 cs). rewrite IH. lia.
Qed.

(** [RuneCountInString] counts the scalar values of well-formed UTF-8. *)
Lemma RuneCountInString_utf8 (s : string) (cs : list N) :
  bytes s = utf8 cs -> Forall validScalar cs ->
  RuneCountInString s = length cs.
Proof.
  intros Hs Hcs. unfold RuneCountInString. rewrite Hs.
  rewrite <- (app_nil_r (utf8 cs)), runeCountFrom_utf8 by done.
  cbn. lia.
Qed.

Lemma byteOf_retab (a : ascii) :
  byteOf (if Ascii.eqb a tab then space else a) = retab (byteOf a).
Proof. by destruct a as [[] [] [] [] [] [] [] []]. Qed.

Lemma bytes_ReplaceAll (s : string) :
  bytes (ReplaceAll s tab space) = map retab (bytes s).
Proof.
  unfold bytes. induction s as [| a s IH]; [done |].
  cbn [ReplaceAll list_ascii_of_string map]. by rewrite byteOf_retab, IH.
Qed.

Lemma byteAt_retab (s : list N) (i : nat) :
  byteAt (map retab s) i = retab (byteAt s i).
Proof. unfold byteAt. apply (map_nth retab s 0%N i). Qed.

Lemma retab_below (y lo : N) :
  (0x80 <= lo)%N -> (retab y <? lo)%N = (y <? lo)%N.
Proof.
  intros Hlo. unfold retab. destruct (N.eqb_spec y 9) as [-> | _]; [| done].
  rewrite !(proj2 (N.ltb_lt _ _)); [done | lia | lia].
Qed.

Lemma retab_above (y hi : N) :
  (0x80 <= hi)%N -> (hi <? retab y)%N = (hi <? y)%N.
Proof.
  intros Hhi. unfold retab. destruct (N.eqb_spec y 9) as [-> | _]; [| done].
  rewrite !(proj2 (N.ltb_ge _ _)); [done | lia | lia].
Qed.

Lemma first_values (c : N) :
  (0x80 <= c)%N ->
  first c = xx \/ first c = s1 \/ first c = s2 \/
  first c = s3 \/ first c = s4 \/ first c = s5 \/ first c = s6 \/
  first c = s7.
Proof.
  intros Hc. unfold first. rewrite (proj2 (N.ltb_ge c 0x80)) by done.
  repeat case_match; tauto.
Qed.

(** A tab and a space are both ASCII: the loop takes the same steps on a
    text and on the text with its tabs replaced. *)
Lemma stepSize_retab (s : list N) : stepSize (map retab s) = stepSize s.
Proof.
  destruct s as [| c rest]; [done |].
  unfold stepSize. cbn [map].
  change (retab c :: map retab rest) with (map retab (c :: rest)).
  rewrite !byteAt_retab, length_map.
  unfold RuneSelf. rewrite (retab_below c 0x80) by lia.
  destruct (N.ltb_spec c 0x80); [done |].
  assert (retab c = c) as ->
    by (unfold retab; destruct (N.eqb_spec c 9); [lia | done]).
  destruct (first_values c)
    as [-> | [-> | [-> | [-> | [-> | [-> | [-> | ->]]]]]]]; [done | ..];
    step_consts;
    repeat match goal with
    | |- context [acceptRanges ?i] => eval_const (acceptRanges i)
    end;
    cbn [N.eqb Pos.eqb];
    rewrite ?retab_below, ?retab_above by lia; reflexivity.
Qed.

Lemma runeCountFrom_retab (s : list N) (skip : nat) :
  runeCountFrom skip (map retab s) = runeCountFrom skip s.
Proof.
  revert skip. induction s as [| c s IH]; intros skip; [done |].
  cbn [map runeCountFrom]. destruct skip as [| k]; [| apply IH].
  change (retab c :: map retab s) with (map retab (c :: s)).
  by rewrite stepSize_retab, IH.
Qed.

(** Replacing tabs by spaces does not change the number of runes. *)
Lemma RuneCountInString_ReplaceAll (s : string) :
  RuneCountInString (ReplaceAll s tab space) = RuneCountInString s.
Proof.
  unfold RuneCountInString. by rewrite bytes_ReplaceAll, runeCountFrom_retab.
Qed.

End Utf8Properties.

(* ===================================================================== *)
(** ** Properties of decodeError *)
(* ===================================================================== *)

Section DecodeProperties.
Import GoLib ErrorModel Vocabulary.

Lemma positionFromHeaders_both (headers : gmap N string)
    (lineS posS : string) (l b : Z) :
  headers !! lineStart = Some lineS -> headers !! positionStart = Some posS ->
  Atoi lineS = Some l -> Atoi posS = Some b ->
  positionFromHeaders headers =
    Ret ({| lineNo := wrap64 (l - 1); byteNo := b |}, true).
Proof.
  intros Hl Hb Hal Hab. unfold positionFromHeaders, atoiOrPanic.
  by rewrite Hl, Hb, Hal, Hab.
Qed.

Lemma positionFromHeaders_missing (headers : gmap N string) :
  headers !! lineStart = None \/ headers !! positionStart = None ->
  positionFromHeaders headers = Ret (zeroPosition, false).
Proof.
  unfold positionFromHeaders. intros [Hm | Hm]; rewrite Hm; [done |].
  by destruct (headers !! lineStart).
Qed.

Lemma locateCaret_inside (query : string) (l b : Z) (line0 : string) :
  minInt <= l <= maxInt -> minInt <= b <= maxInt ->
  pointsInside query l b line0 ->
  wrap64 (l - 1) = l - 1 /\
  skipLines (Split query newline) (l - 1) b = lineOffset query l b /\
  locateCaret query {| lineNo := l - 1; byteNo := b |} =
    Ret (ReplaceAll line0 tab space,
         RuneCountInString (prefix line0 (Z.to_nat (lineOffset query l b)))).
Proof.
  intros Hl Hb (Hl1 & Hline & Hoff).
  assert (Hskip : skipLines (Split query newline) (l - 1) b
                  = lineOffset query l b).
  { rewrite skipLines_wrap by done. apply wrap64_small.
    unfold lineOffset in *.
    pose proof (precedingBytes_nonneg (Split query newline) (Z.to_nat (l - 1))).
    unfold minInt, maxInt in *. lia. }
  split; [apply wrap64_small; unfold minInt, maxInt in *; lia |].
  split; [done |].
  unfold locateCaret, index, sliceTo. cbn [lineNo byteNo].
  rewrite (proj2 (Z.leb_le 0 (l - 1))) by lia.
  rewrite Hline. cbn [mbind outcome_bind]. rewrite Hskip, len_ReplaceAll.
  rewrite (proj2 (Z.leb_le 0 _)), (proj2 (Z.leb_le _ (len line0))) by lia.
  rewrite <- (RuneCountInString_ReplaceAll (prefix line0 _)).
  rewrite <- prefix_ReplaceAll. reflexivity.
Qed.

Lemma locateCaret_returns (query : string) (l b : Z) :
  len query < maxInt ->
  minInt <= l <= maxInt -> minInt <= b <= maxInt ->
  returns (locateCaret query {| lineNo := wrap64 (l - 1); byteNo := b |}) ->
  exists line0, pointsInside query l b line0.
Proof.
  intros Hq Hl Hb [res Hres].
  unfold locateCaret, index, sliceTo in Hres. cbn [lineNo byteNo] in Hres.
  destruct (0 <=? wrap64 (l - 1)) eqn:Hpos; [| done].
  apply Z.leb_le in Hpos.
  destruct (nth_error (Split query newline) (Z.to_nat (wrap64 (l - 1))))
    as [line0 |] eqn:Hline; [| done].
  cbn [mbind outcome_bind] in Hres.
  destruct ((0 <=? skipLines (Split query newline) (wrap64 (l - 1)) b)
            && (skipLines (Split query newline) (wrap64 (l - 1)) b
                <=? len (ReplaceAll line0 tab space))) eqn:Hin; [| done].
  apply andb_true_iff in Hin as [Hlo Hhi].
  apply Z.leb_le in Hlo, Hhi. rewrite len_ReplaceAll in Hhi.
  assert (Hlen : wrap64 (l - 1) < Z.of_nat (length (Split query newline))).
  { rewrite <- (Z2Nat.id (wrap64 (l - 1))) by done.
    apply Nat2Z.inj_lt. apply nth_error_Some. by rewrite Hline. }
  pose proof (Split_length query) as Hsplit.
  assert (Hw : wrap64 (l - 1) = l - 1).
  { destruct (Z.eq_dec l minInt) as [Heq | Hne].
    - exfalso. rewrite Heq, wrap64_min in Hlen. lia.
    - apply wrap64_small. unfold minInt, maxInt in *. lia. }
  rewrite Hw in *.
  pose proof (Split_bytes _ _ _ Hline) as Hbytes.
  pose proof (precedingBytes_nonneg (Split query newline) (Z.to_nat (l - 1))) as Hp.
  rewrite skipLines_wrap in Hlo, Hhi by done.
  exists line0. unfold pointsInside, lineOffset.
  split; [lia |]. split; [done |].
  destruct (Z_lt_le_dec (b - precedingBytes (Split query newline) (Z.to_nat (l - 1)))
                        minInt) as [Hlt | Hge].
  - rewrite wrap64_below in Hhi by (unfold minInt, maxInt in *; lia).
    unfold minInt, maxInt in *. lia.
  - rewrite wrap64_small in Hlo, Hhi by (unfold minInt, maxInt in *; lia).
    lia.
Qed.

(** Where both headers point inside the text, [decodeError] returns
    the error for the code with the position block after the message. *)
Lemma decodeError_inside (r : errorResponse) (query lineS posS : string)
    (l b : Z) (line0 : string) :
  readHeaders (headerPairs r) !! lineStart = Some lineS ->
  readHeaders (headerPairs r) !! positionStart = Some posS ->
  Atoi lineS = Some l -> Atoi posS = Some b ->
  pointsInside query l b line0 ->
  let line := ReplaceAll line0 tab space in
  let n := RuneCountInString (prefix line0 (Z.to_nat (lineOffset query l b))) in
  decodeError r query =
    Ret (errorFromCode (code r)
           (message r ++
            renderPosition l (1 + Z.of_nat n) line (Repeat space n)
              (default "error"%string
                 (readHeaders (headerPairs r) !! hint)))%string).
Proof.
  intros Hls Hps Hal Hab Hin line n.
  destruct (locateCaret_inside query l b line0) as (Hw & _ & Hcaret);
    eauto using Atoi_range.
  unfold decodeError.
  rewrite (positionFromHeaders_both _ _ _ _ _ Hls Hps Hal Hab), Hw.
  cbn [mbind outcome_bind negb]. unfold positionedMessage.
  rewrite Hcaret. cbn [mbind outcome_bind lineNo].
  by replace (1 + (l - 1)) with l by lia.
Qed.

(** C7: a payload that lacks the line-start header or the
    position-start header decodes to the plain error for its code and
    message: the message is the payload's own, with no "query:" block
    after it. *)
Theorem decodeError_without_position (r : errorResponse) (query : string) :
  (forall v, (lineStart, v) ∉ headerPairs r) \/
  (forall v, (positionStart, v) ∉ headerPairs r) ->
  positionFromHeaders (readHeaders (headerPairs r)) = Ret (zeroPosition, false) /\
  decodeError r query = Ret (errorFromCode (code r) (message r)).
Proof.
  intros Hmiss.
  assert (Hpos : positionFromHeaders (readHeaders (headerPairs r))
                 = Ret (zeroPosition, false)).
  { apply positionFromHeaders_missing.
    destruct Hmiss as [Hm | Hm]; [left | right]; by apply readHeaders_None. }
  split; [done |]. unfold decodeError. by rewrite Hpos.
Qed.

Lemma ReplaceAll_retabbed (s : string) : ReplaceAll s tab space = retabbed s.
Proof.
  unfold retabbed. induction s as [| a s IH]; [done |].
  cbn [ReplaceAll list_ascii_of_string map string_of_list_ascii].
  by rewrite IH.
Qed.

Lemma Repeat_spaces (n : nat) : Repeat space n = spaces n.
Proof.
  unfold spaces. induction n as [| n IH]; [done |].
  cbn [Repeat List.repeat string_of_list_ascii]. by rewrite IH.
Qed.

(** C6 (as amended): for a payload whose two position headers hold
    integers that point inside the query text, and where the bytes of the
    target line before the offset are the UTF-8 encoding of whole scalar
    values, the zero-based line number is the line-start value minus one;
    the byte offset on the target line is the position-start value minus
    the bytes of every preceding line and its newline; and the caret
    column is the number of those scalar values, not the number of
    bytes: the message ends with "query:", the line-start value, a colon
    and one more than that number, a blank line, the target line with its
    tabs shown as spaces, and that number of spaces before the caret. *)
Theorem caret_column_counts_scalars (r : errorResponse)
    (query lineS posS : string) (l b : Z) (line0 : string) (cs : list N) :
  readHeaders (headerPairs r) !! lineStart = Some lineS ->
  readHeaders (headerPairs r) !! positionStart = Some posS ->
  Atoi lineS = Some l -> Atoi posS = Some b ->
  pointsInside query l b line0 ->
  bytes (prefix line0 (Z.to_nat (lineOffset query l b))) = utf8 cs ->
  Forall validScalar cs ->
  positionFromHeaders (readHeaders (headerPairs r)) =
    Ret ({| lineNo := l - 1; byteNo := b |}, true) /\
  skipLines (Split query newline) (l - 1) b =
    b - precedingBytes (Split query newline) (Z.to_nat (l - 1)) /\
  locateCaret query {| lineNo := l - 1; byteNo := b |} =
    Ret (retabbed line0, length cs) /\
  decodeError r query =
    Ret (errorFromCode (code r)
           (message r ++ nl ++ "query:" ++ itoa l ++ ":"
              ++ itoa (1 + Z.of_nat (length cs)) ++ nl ++ nl
              ++ retabbed line0 ++ nl ++ spaces (length cs) ++ "^ "
              ++ match readHeaders (headerPairs r) !! hint with
                 | Some h => h
                 | None => "error"
                 end)%string).
Proof.
  intros Hls Hps Hal Hab Hin Hutf Hcs.
  destruct (locateCaret_inside query l b line0) as (Hw & Hskip & Hcaret);
    eauto using Atoi_range.
  pose proof (decodeError_inside r query lineS posS l b line0
                Hls Hps Hal Hab Hin) as Hdec.
  cbv zeta in Hdec.
  rewrite (RuneCountInString_utf8 _ cs Hutf Hcs) in Hdec, Hcaret.
  rewrite ReplaceAll_retabbed in Hdec, Hcaret. rewrite Repeat_spaces in Hdec.
  split; [| split; [done | split; [done |]]].
  - by rewrite (positionFromHeaders_both _ _ _ _ _ Hls Hps Hal Hab), Hw.
  - rewrite Hdec. reflexivity.
Qed.

(** C8 (as amended): for a payload with both position headers pointing
    inside the query text, the composed message is the original message,
    a newline, "query:", the line number counted from one, a colon, the
    column counted from one, then a blank line, then the source line with
    every tab replaced by one space, then a line of one space per rune
    before the offset, followed by a caret, a space and the hint header's
    value, or the word "error" when there is no hint header. *)
Theorem decodeError_message_layout (r : errorResponse)
    (query lineS posS : string) (l b : Z) (line0 : string) :
  readHeaders (headerPairs r) !! lineStart = Some lineS ->
  readHeaders (headerPairs r) !! positionStart = Some posS ->
  Atoi lineS = Some l -> Atoi posS = Some b ->
  pointsInside query l b line0 ->
  let line := ReplaceAll line0 tab space in
  let n := RuneCountInString (prefix line0 (Z.to_nat (lineOffset query l b))) in
  let hintmsg := match readHeaders (headerPairs r) !! hint with
                 | Some h => h
                 | None => "error"%string
                 end in
  decodeError r query =
    Ret (errorFromCode (code r)
           (message r ++ nl ++ "query:" ++ itoa l ++ ":"
              ++ itoa (1 + Z.of_nat n) ++ nl ++ nl
              ++ line ++ nl ++ Repeat space n ++ "^ " ++ hintmsg)%string).
Proof.
  intros Hls Hps Hal Hab Hin line n hintmsg.
  rewrite (decodeError_inside r query lineS posS l b line0 Hls Hps Hal Hab Hin).
  reflexivity.
Qed.

(** C10: with both position headers present, [decodeError] panics when
    the line number is past the last line of the query, when the byte
    position falls before the start of the target line, and when it falls
    beyond its end; and, for headers that parse as integers, it returns
    exactly when they point inside the query text. *)
Theorem decodeError_total_only_inside :
  decodeError (oops [(lineStart, "3"%string); (positionStart, "9"%string)])
              twoSelects = Panic (IndexOutOfRange 2 2) /\
  decodeError (oops [(lineStart, "2"%string); (positionStart, "7"%string)])
              twoSelects = Panic (SliceOutOfRange (-2) 8) /\
  decodeError (oops [(lineStart, "2"%string); (positionStart, "18"%string)])
              twoSelects = Panic (SliceOutOfRange 9 8) /\
  forall (r : errorResponse) (query lineS posS : string) (l b : Z),
    readHeaders (headerPairs r) !! lineStart = Some lineS ->
    readHeaders (headerPairs r) !! positionStart = Some posS ->
    Atoi lineS = Some l -> Atoi posS = Some b ->
    len query < maxInt ->
    (returns (decodeError r query) <-> exists line0, pointsInside query l b line0).
Proof.
  split; [by vm_compute |]. split; [by vm_compute |]. split; [by vm_compute |].
  intros r query lineS posS l b Hls Hps Hal Hab Hq. split.
  - intros [res Hres]. apply (locateCaret_returns query l b); eauto using Atoi_range.
    unfold decodeError in Hres.
    rewrite (positionFromHeaders_both _ _ _ _ _ Hls Hps Hal Hab) in Hres.
    cbn [mbind outcome_bind negb] in Hres. unfold positionedMessage in Hres.
    destruct (locateCaret query _) as [res' | p]; [by eexists | done].
  - intros [line0 Hin]. eexists.
    apply (decodeError_inside r query lineS posS l b line0 Hls Hps Hal Hab Hin).
Qed.

End DecodeProperties.

Lemma decodeError_without_position_witness :
  ErrorModel.decodeError
    (Vocabulary.oops [(ErrorModel.lineStart, "2"%string)]) Vocabulary.twoSelects
  = Ret (ErrorModel.errorFromCode 1 "oops").
Proof.
  apply (decodeError_without_position
           (Vocabulary.oops [(ErrorModel.lineStart, "2"%string)])).
  right. intros v Hv. apply list_elem_of_singleton in Hv. discriminate Hv.
Defined.

Lemma caret_column_counts_scalars_witness :
  ErrorModel.decodeError
    (Vocabulary.oops [(ErrorModel.lineStart, "1"%string);
                      (ErrorModel.positionStart, "3"%string)])
    Vocabulary.accented
  = Ret (ErrorModel.errorFromCode 1
           ("oops" ++ ErrorModel.nl ++ "query:1:3" ++ ErrorModel.nl
              ++ ErrorModel.nl ++ Vocabulary.accented ++ ErrorModel.nl
              ++ "  ^ error")%string).
Proof.
  apply (caret_column_counts_scalars
           (Vocabulary.oops [(ErrorModel.lineStart, "1"%string);
                             (ErrorModel.positionStart, "3"%string)])
           Vocabulary.accented "1" "3" 1 3 Vocabulary.accented [0xE9; 0x20]%N);
    try reflexivity.
  - split; [lia |]. split; [reflexivity |]. by vm_compute.
  - repeat constructor; unfold Vocabulary.validScalar; lia.
Defined.

(** C6 (as stated) fails: with line 1 and position 2 on a line that is
    the three bytes of U+20AC, two spaces precede the caret and the
    column printed is 3, though the line holds one scalar value, none of
    it wholly before byte 2: the two bytes before the offset are counted
    one rune each. *)
Lemma column_counts_bytes_inside_a_scalar :
  ~ Vocabulary.statedColumn
      (Vocabulary.oops [(ErrorModel.lineStart, "1"%string);
                        (ErrorModel.positionStart, "2"%string)])
      Vocabulary.euro.
Proof.
  intros Hstated.
  assert (Hvalid : Forall Vocabulary.validScalar [0x20AC]%N).
  { repeat constructor; unfold Vocabulary.validScalar; lia. }
  destruct (Hstated "1"%string "2"%string 1 2 Vocabulary.euro [0x20AC]%N
              eq_refl eq_refl eq_refl eq_refl eq_refl eq_refl Hvalid)
    as (n & line & hintmsg & Hn & Hdec).
  destruct Hn as [-> | ->]; vm_compute in Hdec; discriminate Hdec.
Qed.

Lemma decodeError_message_layout_witness :
  ErrorModel.decodeError
    (Vocabulary.oops [(ErrorModel.lineStart, "2"%string);
                      (ErrorModel.positionStart, "16"%string)])
    Vocabulary.twoSelects
  = Ret (ErrorModel.errorFromCode 1
           ("oops" ++ ErrorModel.nl ++ "query:2:8" ++ ErrorModel.nl ++ ErrorModel.nl
              ++ "SELECT x" ++ ErrorModel.nl ++ "       ^ error")%string).
Proof.
  apply (decodeError_message_layout
           (Vocabulary.oops [(ErrorModel.lineStart, "2"%string);
                             (ErrorModel.positionStart, "16"%string)])
           Vocabulary.twoSelects "2" "16" 2 16 "SELECT x"); try reflexivity.
  split; [lia |]. split; [reflexivity |]. by vm_compute.
Defined.

Lemma decodeError_total_only_inside_witness :
  returns (ErrorModel.decodeError
             (Vocabulary.oops [(ErrorModel.lineStart, "2"%string);
                               (ErrorModel.positionStart, "16"%string)])
             Vocabulary.twoSelects).
Proof.
  destruct decodeError_total_only_inside as (_ & _ & _ & Hiff).
  apply (Hiff (Vocabulary.oops [(ErrorModel.lineStart, "2"%string);
                                (ErrorModel.positionStart, "16"%string)])
              Vocabulary.twoSelects "2"%string "16"%string 2 16);
    try reflexivity.
  exists "SELECT x"%string.
  split; [lia |]. split; [reflexivity |]. by vm_compute.
Defined.

(** C8 (as stated) fails: the blank line does not come between the
    message and the "query:" line; it comes after the "query:" line. *)
Lemma blank_line_follows_query_line :
  ~ Vocabulary.claimedLayout
      (Vocabulary.oops [(ErrorModel.lineStart, "2"%string);
                        (ErrorModel.positionStart, "16"%string)])
      Vocabulary.twoSelects.
Proof.
  intros (lineNo1 & col1 & line & padding & hintmsg & Hclaim).
  vm_compute in Hclaim. discriminate Hclaim.
Qed.

(* ===================================================================== *)
(** ** The model on concrete inputs *)
(* ===================================================================== *)

Section Examples.
Import GoLib ErrorModel Vocabulary.
Local Open Scope string_scope.

Example Atoi_examples :
  Atoi "16" = Some 16 /\ Atoi "-3" = Some (-3) /\ Atoi "+7" = Some 7 /\
  Atoi "" = None /\ Atoi "+" = None /\ Atoi "1_0" = None /\ Atoi "x" = None /\
  Atoi "9223372036854775807" = Some maxInt /\
  Atoi "9223372036854775808" = None.
Proof. by vm_compute. Qed.

Example Split_examples :
  Split twoSelects newline = ["SELECT 1"; "SELECT x"] /\
  Split "" newline = [""] /\
  Split (nl ++ "a" ++ nl) newline = [""; "a"; ""].
Proof. by vm_compute. Qed.

Example itoa_examples : itoa 0 = "0" /\ itoa 12 = "12" /\ itoa (-5) = "-5".
Proof. by vm_compute. Qed.

(** Four bytes, three runes. *)
Example RuneCountInString_accented :
  len accented = 4 /\ RuneCountInString accented = 3%nat /\
  bytes accented = utf8 [0xE9; 0x20; 0x78]%N.
Proof. by vm_compute. Qed.

(** Bytes that are not well-formed UTF-8 count one rune each. *)
Example RuneCountInString_truncated :
  RuneCountInString (String (ascii_of_N 0xE2) (String (ascii_of_N 0x82) "")) = 2%nat.
Proof. by vm_compute. Qed.

Example wrapAll_examples :
  @wrapAll plainText [None; None] = None /\
  @wrapAll plainText [None; Some (noDataError "zero results")] = errZeroResults /\
  @wrapAll plainText
     [Some (interfaceError "a"); None; Some (codeError 1 "b"); Some (noDataError "c")]
  = Some (wrappedManyError "a; b; c"
            [interfaceError "a"; codeError 1 "b"; noDataError "c"]).
Proof. by vm_compute. Qed.

(** A hint header replaces the word "error"; a tab before the caret is
    printed as a space. *)
Example decodeError_hint :
  decodeError (oops [(hint, "did you mean y?"); (positionStart, "8");
                     (lineStart, "1")])
              (String tab "SELECT x")
  = Ret (errorFromCode 1
           ("oops" ++ nl ++ "query:1:9" ++ nl ++ nl ++ " SELECT x" ++ nl
              ++ "        ^ did you mean y?")).
Proof. by vm_compute. Qed.

(** A header set twice: the later pair is the one that counts. *)
Example readHeaders_last_wins :
  readHeaders [(lineStart, "1"); (lineStart, "2")] !! lineStart = Some "2".
Proof. by vm_compute. Qed.

(** A header that is not an integer is a panic. *)
Example decodeError_malformed_header :
  decodeError (oops [(lineStart, "one"); (positionStart, "0")]) twoSelects
  = Panic (AtoiFailed "one").
Proof. by vm_compute. Qed.

Example borrow_unknown_reason :
  Borrow.borrow {| Borrow.baseConn := 1%N; Borrow.reason := "" |} "query"
  = Panic (UnexpectedReason "query") /\
  Borrow.unborrow {| Borrow.baseConn := 1%N; Borrow.reason := "" |}
  = Panic NotBorrowed.
Proof. by vm_compute. Qed.

End Examples.

(* ===================================================================== *)
(** ** More on the borrow guard *)
(* ===================================================================== *)

Section GuardProperties.
Import ErrorModel Borrow Vocabulary.
Local Open Scope string_scope.

Lemma validReason_cases (r : string) (P : string -> Prop) :
  validReason r -> P "" -> P "transaction" -> P "subtransaction" -> P r.
Proof. intros [-> | [-> | ->]]; auto. Qed.

Lemma eqb_false_of_ne (a b : string) : a <> b -> (a =? b) = false.
Proof. apply String.eqb_neq. Qed.

Lemma invalid_reason_tests (r : string) :
  ~ validReason r ->
  (r =? "") = false /\ (r =? "transaction") = false /\
  (r =? "subtransaction") = false.
Proof.
  intros Hbad. repeat split; apply String.eqb_neq; intros ->; apply Hbad;
    [by left | right; by left | right; by right].
Qed.

Lemma invalid_borrow_tests (r : string) :
  ~ borrowReason r ->
  (r =? "transaction") || (r =? "subtransaction") = false.
Proof.
  intros Hbad. apply orb_false_iff.
  split; apply String.eqb_neq; intros ->; apply Hbad; [by left | by right].
Qed.

(** X1: [borrow] is [assertUnborrowed] followed by setting the reason: it
    fails with the very error [assertUnborrowed] returns, panics on the
    states on which that panics, and succeeds where that returns nil. *)
Theorem borrow_agrees_with_assertUnborrowed (c : borrowableConn) (r : string) :
  borrowReason r ->
  match assertUnborrowed c with
  | Ret (_, None) => borrow c r = Ret (setReason c r, (Some (baseConn c), None))
  | Ret (_, Some e) => borrow c r = Ret (c, (None, Some e))
  | Panic p => borrow c r = Panic p
  end.
Proof.
  intros Hr. unfold assertUnborrowed, borrow.
  destruct (reason c =? "") eqn:H0.
  - by rewrite (borrowReason_cases r
                  (fun r => (r =? "transaction") || (r =? "subtransaction") = true)).
  - destruct (reason c =? "transaction"); [done |].
    by destruct (reason c =? "subtransaction").
Qed.

Lemma borrow_agrees_with_assertUnborrowed_witness :
  let c := {| baseConn := 7%N; reason := "subtransaction" |} in
  assertUnborrowed c = Ret (c, Some (interfaceError subtransactionMsg)) /\
  borrow c "transaction" = Ret (c, (None, Some (interfaceError subtransactionMsg))).
Proof.
  intros c. split; [reflexivity |].
  apply (borrow_agrees_with_assertUnborrowed c "transaction"). by left.
Defined.

(** X2: [borrow] panics in two cases only: the stored reason is none of the
    three known values, or the connection is unborrowed and the reason
    asked for is not one of the two borrows. On a borrowed connection the
    reason asked for is not looked at. *)
Theorem borrow_panics_iff (c : borrowableConn) (r : string) :
  (panics (borrow c r) <->
   ~ validReason (reason c) \/ (reason c = "" /\ ~ borrowReason r)) /\
  (borrowReason (reason c) ->
   borrow c r = Ret (c, (None, Some (interfaceError (borrowError (reason c)))))).
Proof.
  split; [split |].
  - intros [p Hp]. unfold borrow in Hp.
    destruct (String.eqb_spec (reason c) "") as [H0 | H0].
    + right. split; [done |]. intros [-> | ->]; discriminate Hp.
    + left. intros [Hv | [Hv | Hv]]; [done | |]; rewrite Hv in Hp; discriminate Hp.
  - intros [Hbad | [H0 Hr]]; unfold borrow.
    + destruct (invalid_reason_tests _ Hbad) as (-> & -> & ->). by eexists.
    + rewrite H0, (invalid_borrow_tests _ Hr). by eexists.
  - intros [Hb | Hb]; unfold borrow; by rewrite Hb.
Qed.

Lemma borrow_panics_iff_witness :
  panics (borrow {| baseConn := 7%N; reason := "" |} "query") /\
  borrow {| baseConn := 7%N; reason := "transaction" |} "query" =
    Ret ({| baseConn := 7%N; reason := "transaction" |},
         (None, Some (interfaceError transactionMsg))).
Proof.
  split.
  - apply (proj1 (borrow_panics_iff {| baseConn := 7%N; reason := "" |} "query")).
    right. split; [reflexivity |]. intros [H | H]; discriminate H.
  - apply (proj2 (borrow_panics_iff
                    {| baseConn := 7%N; reason := "transaction" |} "query")).
    by left.
Defined.

(** X3: [unborrow] panics exactly on an unborrowed connection; otherwise it
    leaves the connection unborrowed, so that a second [unborrow] in a row
    panics, and it keeps the underlying connection. *)
Theorem unborrow_panics_iff (c : borrowableConn) :
  (panics (unborrow c) <-> reason c = "") /\
  (forall c1, unborrow c = Ret c1 ->
     reason c1 = "" /\ baseConn c1 = baseConn c /\
     unborrow c1 = Panic NotBorrowed /\
     assertUnborrowed c1 = Ret (c1, None)).
Proof.
  unfold unborrow. destruct (String.eqb_spec (reason c) "") as [H0 | H0].
  - split; [split; [done | by eexists] | done].
  - split; [split; [by intros [p Hp] | done] |].
    intros c1 Hc1. by simplify_eq.
Qed.

Lemma unborrow_panics_iff_witness :
  panics (unborrow {| baseConn := 7%N; reason := "" |}) /\
  unborrow {| baseConn := 7%N; reason := "" |} = Panic NotBorrowed.
Proof.
  split.
  - by apply (proj1 (unborrow_panics_iff {| baseConn := 7%N; reason := "" |})).
  - apply (proj2 (unborrow_panics_iff {| baseConn := 7%N; reason := "transaction" |})
             {| baseConn := 7%N; reason := "" |} eq_refl).
Defined.

Lemma guardStep_valid (c c1 : borrowableConn) (g : guardCall) :
  validReason (reason c) -> guardStep c g = Ret c1 ->
  validReason (reason c1) /\ baseConn c1 = baseConn c.
Proof.
  intros Hv Hstep. destruct g as [r | |]; cbn [guardStep] in Hstep.
  - unfold borrow in Hstep.
    destruct (reason c =? "") eqn:H0.
    + destruct (String.eqb_spec r "transaction") as [-> | Ht].
      * cbn in Hstep. simplify_eq. split; [right; by left | done].
      * destruct (String.eqb_spec r "subtransaction") as [-> | Hs];
          cbn in Hstep; simplify_eq. split; [right; by right | done].
    + destruct (reason c =? "transaction"); cbn in Hstep; simplify_eq; [done |].
      destruct (reason c =? "subtransaction"); cbn in Hstep; by simplify_eq.
  - unfold unborrow in Hstep. destruct (reason c =? ""); simplify_eq.
    split; [by left | done].
  - unfold assertUnborrowed in Hstep.
    repeat case_match; cbn in Hstep; by simplify_eq.
Qed.

(** X4: Whatever calls are made on the guard, as long as none panics the
    reason stays one of "", "transaction" and "subtransaction" and the
    underlying connection stays the same; so the guard check at the top
    of the entry points cannot hit its panic. *)
Theorem guard_keeps_valid_reason (gs : list guardCall) :
  forall c c1 : borrowableConn,
    validReason (reason c) -> guardRun c gs = Ret c1 ->
    validReason (reason c1) /\ baseConn c1 = baseConn c /\
    ~ panics (assertUnborrowed c1).
Proof.
  induction gs as [| g gs IH]; intros c c1 Hv Hrun.
  - cbn in Hrun. simplify_eq. split; [done |]. split; [done |].
    intros [p Hp]. unfold assertUnborrowed in Hp.
    destruct Hv as [Hv | [Hv | Hv]]; rewrite Hv in Hp; discriminate Hp.
  - cbn [guardRun] in Hrun.
    destruct (guardStep c g) as [c2 | p] eqn:Hstep; [| done].
    cbn in Hrun. destruct (guardStep_valid _ _ _ Hv Hstep) as [Hv2 Hb2].
    destruct (IH c2 c1 Hv2 Hrun) as (? & ? & ?). repeat split; congruence.
Qed.

Lemma guard_keeps_valid_reason_witness :
  reason {| baseConn := 7%N; reason := "subtransaction" |} = "subtransaction" /\
  validReason "subtransaction".
Proof.
  split; [reflexivity |].
  apply (guard_keeps_valid_reason
           [GBorrow "transaction"; GAssert; GBorrow "subtransaction";
            GUnborrow; GBorrow "subtransaction"]
           {| baseConn := 7%N; reason := "" |}
           {| baseConn := 7%N; reason := "subtransaction" |});
    [by left | reflexivity].
Defined.

Context `{BaseConn}.

Lemma Execute_unborrowed (c : borrowableConn) (ctx : context) (cmd : string)
    (sent : list flowCall) :
  reason c = "" ->
  Execute c ctx cmd sent =
    Ret (c, (sent ++ [executeCall c ctx cmd])%list,
         baseConn_scriptFlow sent (baseConn c) ctx
           {| sf_cmd := cmd; sf_headers := headers c |}).
Proof.
  intros Hc. unfold Execute, scriptFlow, assertUnborrowed. by rewrite Hc.
Qed.

Lemma Execute_borrowed (c : borrowableConn) (ctx : context) (cmd : string)
    (sent : list flowCall) :
  borrowReason (reason c) ->
  Execute c ctx cmd sent =
    Ret (c, sent, Some (interfaceError (borrowError (reason c)))).
Proof.
  intros Hb. unfold Execute, scriptFlow, assertUnborrowed.
  by destruct Hb as [-> | ->].
Qed.

(** X5: On an unborrowed connection a series of [Execute] calls reaches the
    base connection once per command, in order, each with the header set
    that allows no transaction capability; the borrow state is left as it
    was, and a command is sent whatever the earlier ones returned. On a
    borrowed connection none of them is sent and each returns the borrow
    error. *)
Theorem executeAll_sends_each_once (cmds : list string) :
  forall (c : borrowableConn) (ctx : context) (sent : list flowCall),
    (reason c = "" ->
     exists es,
       executeAll c ctx cmds sent =
         Ret (c, (sent ++ map (executeCall c ctx) cmds)%list, es) /\
       length es = length cmds) /\
    (borrowReason (reason c) ->
     executeAll c ctx cmds sent =
       Ret (c, sent,
            map (fun _ => Some (interfaceError (borrowError (reason c)))) cmds)).
Proof.
  induction cmds as [| cmd cmds IH]; intros c ctx sent.
  - split; intros _; cbn; [| done]. exists []. by rewrite app_nil_r.
  - split.
    + intros Hc. cbn [executeAll]. rewrite Execute_unborrowed by done.
      destruct (proj1 (IH c ctx (sent ++ [executeCall c ctx cmd])%list) Hc)
        as (es & Hes & Hlen).
      cbn [mbind outcome_bind]. rewrite Hes. cbn [mbind outcome_bind].
      eexists. split; [by rewrite <- app_assoc | cbn; by rewrite Hlen].
    + intros Hb. cbn [executeAll]. rewrite Execute_borrowed by done.
      cbn [mbind outcome_bind]. rewrite (proj2 (IH c ctx sent) Hb).
      reflexivity.
Qed.

End GuardProperties.

Lemma executeAll_sends_each_once_witness :
  let c := {| Borrow.baseConn := 7%N; Borrow.reason := ""%string |} in
  exists es,
    @Vocabulary.executeAll Vocabulary.quietBaseConn c 0%N
       ["SELECT 1"; "SELECT 2"]%string [] =
    Ret (c, [@Vocabulary.executeCall Vocabulary.quietBaseConn c 0%N "SELECT 1";
             @Vocabulary.executeCall Vocabulary.quietBaseConn c 0%N "SELECT 2"],
         es).
Proof.
  intros c.
  destruct (proj1 (@executeAll_sends_each_once Vocabulary.quietBaseConn
                     ["SELECT 1"; "SELECT 2"]%string c 0%N []) eq_refl)
    as (es & Hes & _).
  exists es. exact Hes.
Defined.

(* ===================================================================== *)
(** ** More on the pooled connection *)
(* ===================================================================== *)

Section HandleProperties.
Import ErrorModel Pool Vocabulary.
Context `{PoolEnv}.

Lemma runOps_history (ms : list connMethod) :
  forall (c : poolConn) (hist : list event) c1 h1 es,
    runOps c ms hist = (c1, h1, es) ->
    h1 = hist ++ map (ConnCall (conn c)) ms /\
    forall i m, ms !! i = Some m ->
      es !! i = Some (conn_call (hist ++ map (ConnCall (conn c)) (take i ms))
                                (conn c) m).
Proof.
  induction ms as [| m ms IH]; intros c hist c1 h1 es Hrun.
  - cbn in Hrun. simplify_eq. split; [by rewrite app_nil_r | done].
  - cbn [runOps] in Hrun. unfold forward in Hrun.
    destruct (runOps _ ms _) as [[c2 h2] es2] eqn:Hrest. simplify_eq.
    destruct (IH _ _ _ _ _ Hrest) as [Hh Hes].
    destruct (checkErr_fields c (conn_call hist (conn c) m)) as (_ & Hc & _).
    rewrite Hc in Hh, Hes. split.
    + rewrite Hh. cbn [map]. by rewrite <- app_assoc.
    + intros [| i] m' Hm'; cbn in Hm'; simplify_eq.
      * cbn. by rewrite app_nil_r.
      * change ((conn_call hist (conn c) m :: es2) !! S i) with (es2 !! i).
        rewrite (Hes i m' Hm'). cbn [take map]. by rewrite <- app_assoc.
Qed.

(** X6: The forwarding methods are transparent: a series of operations
    returns, in order, exactly what the wrapped connection answered,
    reaches that connection once per operation, in order, and changes
    neither the pool nor the connection the handle holds. *)
Theorem forwarding_is_transparent (c : poolConn) (ms : list connMethod)
    (hist : list event) :
  exists c1 es,
    runOps c ms hist = (c1, hist ++ map (ConnCall (conn c)) ms, es) /\
    pool c1 = pool c /\ conn c1 = conn c /\
    length es = length ms /\
    forall i m, ms !! i = Some m ->
      es !! i = Some (conn_call (hist ++ map (ConnCall (conn c)) (take i ms))
                                (conn c) m).
Proof.
  destruct (runOps c ms hist) as [[c1 h1] es] eqn:Hrun.
  destruct (runOps_fields _ _ _ _ _ _ Hrun) as (Hp & Hc & _ & Hl & _).
  destruct (runOps_history _ _ _ _ _ _ Hrun) as [-> Hes].
  exists c1, es. repeat split; done.
Qed.

Lemma lastImpairing_origin (init : goerror) (es : list goerror) :
  lastImpairing init es = init \/
  (healthImpairing (lastImpairing init es) = true /\ lastImpairing init es ∈ es).
Proof.
  revert init. induction es as [| e es IH]; intros init; [by left |].
  cbn [lastImpairing fold_left].
  destruct (healthImpairing e) eqn:He.
  - destruct (IH e) as [Heq | [Himp Hin]].
    + right. unfold lastImpairing in Heq. rewrite Heq. split; [done | by left].
    + right. split; [done | by right].
  - destruct (IH init) as [Heq | [Himp Hin]]; [by left |].
    right. split; [done | by right].
Qed.

(** X7: What a fresh handle reports at release is never an ordinary error:
    it is nil, or an error that one of the operations returned and that
    is classified as health-impairing. *)
Theorem reported_health_is_impairing (c : poolConn) (p : poolPtr)
    (ms : list connMethod) (hist : list event) c1 h1 es :
  pool c = Some p -> err c = None ->
  runOps c ms hist = (c1, h1, es) ->
  exists health,
    (Release c1 h1).1.2 = h1 ++ [PoolRelease p (conn c) health] /\
    (health = None \/ (healthImpairing health = true /\ health ∈ es)).
Proof.
  intros Hp He Hrun.
  destruct (runOps_fields _ _ _ _ _ _ Hrun) as (Hp1 & Hc1 & He1 & _ & _).
  exists (err c1). split.
  - rewrite (Release_live c1 p) by congruence. cbn. by rewrite Hc1.
  - rewrite He1, He. destruct (lastImpairing_origin None es); auto.
Qed.

(** X8: A handle that holds a health error keeps holding one: no operation
    clears it (the network classifier being false on nil). *)
Theorem impaired_handle_stays_impaired (c : poolConn) (ms : list connMethod)
    (hist : list event) c1 h1 es :
  IsPermanentNetErr None = false ->
  err c <> None ->
  runOps c ms hist = (c1, h1, es) ->
  err c1 <> None.
Proof.
  intros Hnil He Hrun.
  destruct (runOps_fields _ _ _ _ _ _ Hrun) as (_ & _ & He1 & _ & _).
  rewrite He1. apply lastImpairing_some; [| by left].
  unfold healthImpairing. by rewrite Hnil.
Qed.

Lemma runCalls_app (calls1 calls2 : list handleCall) :
  forall (c : poolConn) (hist : list event),
    runCalls c (calls1 ++ calls2) hist =
      let '(c1, h1, es1) := runCalls c calls1 hist in
      let '(c2, h2, es2) := runCalls c1 calls2 h1 in
      (c2, h2, es1 ++ es2).
Proof.
  induction calls1 as [| call calls1 IH]; intros c hist.
  - cbn. by destruct (runCalls c calls2 hist) as [[? ?] ?].
  - cbn [runCalls app].
    destruct (match call with
              | Operate m => forward c m hist
              | DoRelease => Release c hist
              end) as [[c1 h1] e].
    rewrite IH.
    destruct (runCalls c1 calls1 h1) as [[c2 h2] es2].
    by destruct (runCalls c2 calls2 h2) as [[? ?] ?].
Qed.

Lemma runCalls_Operate (ms : list connMethod) :
  forall (c : poolConn) (hist : list event),
    runCalls c (map Operate ms) hist = runOps c ms hist.
Proof.
  induction ms as [| m ms IH]; intros c hist; [done |].
  cbn [map runCalls runOps].
  destruct (forward c m hist) as [[c1 h1] e]. by rewrite IH.
Qed.

Lemma poolReleases_app (h1 h2 : list event) :
  poolReleases (h1 ++ h2) = poolReleases h1 ++ poolReleases h2.
Proof. apply List.filter_app. Qed.

Lemma runCalls_without_pool (calls : list handleCall) :
  forall (c : poolConn) (hist : list event),
    pool c = None ->
    pool (runCalls c calls hist).1.1 = None /\
    poolReleases (runCalls c calls hist).1.2 = poolReleases hist.
Proof.
  induction calls as [| call calls IH]; intros c hist Hp; [done |].
  cbn [runCalls]. destruct call as [m |].
  - unfold forward.
    destruct (checkErr_fields c (conn_call hist (conn c) m)) as (Hp1 & _ & _).
    specialize (IH (checkErr c (conn_call hist (conn c) m))
                   (hist ++ [ConnCall (conn c) m])).
    destruct (runCalls _ calls _) as [[c2 h2] es2]. cbn in *.
    destruct IH as [IH1 IH2]; [congruence |]. split; [done |].
    rewrite IH2, poolReleases_app. cbn. by rewrite app_nil_r.
  - unfold Release. rewrite Hp. specialize (IH c hist Hp).
    by destruct (runCalls c calls hist) as [[c2 h2] es2].
Qed.

(** X9: Once a handle has let go of its pool, nothing done with it reaches
    the pool's release routine: whatever operations and releases follow,
    in whatever order, the handle stays without a pool, the history shows
    no further release, and every [Release] among them returns the
    "released more than once" error. *)
Theorem released_handle_never_reaches_pool (calls : list handleCall) :
  forall (c : poolConn) (hist : list event),
    pool c = None ->
    pool (runCalls c calls hist).1.1 = None /\
    poolReleases (runCalls c calls hist).1.2 = poolReleases hist /\
    forall i, calls !! i = Some DoRelease ->
      (runCalls c calls hist).2 !! i = Some (Some (interfaceError releasedMsg)).
Proof.
  intros c hist Hp.
  destruct (runCalls_without_pool calls c hist Hp) as [Hpool Hquiet].
  split; [done |]. split; [done |]. clear Hpool Hquiet.
  revert c hist Hp. induction calls as [| call calls IH]; intros c hist Hp i Hi.
  - by rewrite lookup_nil in Hi.
  - cbn [runCalls]. destruct call as [m |].
    + unfold forward.
      destruct (checkErr_fields c (conn_call hist (conn c) m)) as (Hp1 & _ & _).
      specialize (IH (checkErr c (conn_call hist (conn c) m))
                     (hist ++ [ConnCall (conn c) m]) (eq_trans Hp1 Hp)).
      destruct (runCalls _ calls _) as [[c2 h2] es2]. cbn in *.
      destruct i as [| i]; [done |]. by apply IH.
    + unfold Release. rewrite Hp. specialize (IH c hist Hp).
      destruct (runCalls c calls hist) as [[c2 h2] es2]. cbn in *.
      destruct i as [| i]; [done |]. by apply IH.
Qed.

(** X10: A handle reaches the pool's release routine once in its life: after
    any operations, the first [Release] hands over the connection with
    the last health-impairing error those operations returned, and
    whatever is done with the handle after that adds no other release. *)
Theorem pool_sees_one_release (c : poolConn) (p : poolPtr)
    (ms : list connMethod) (later : list handleCall) (hist : list event) :
  pool c = Some p ->
  poolReleases (runCalls c (map Operate ms ++ DoRelease :: later) hist).1.2 =
    poolReleases hist ++
    [PoolRelease p (conn c) (lastImpairing (err c) (runOps c ms hist).2)] /\
  pool (runCalls c (map Operate ms ++ DoRelease :: later) hist).1.1 = None.
Proof.
  intros Hp. rewrite runCalls_app, runCalls_Operate.
  destruct (runOps c ms hist) as [[c1 h1] es] eqn:Hrun.
  destruct (runOps_fields _ _ _ _ _ _ Hrun) as (Hp1 & Hc1 & He1 & _ & Hf).
  cbn [runCalls]. rewrite (Release_live c1 p) by congruence.
  pose proof (runCalls_without_pool later released
                (h1 ++ [PoolRelease p (conn c1) (err c1)]) eq_refl) as [Hl1 Hl2].
  destruct (runCalls released later _) as [[c2 h2] es2]. cbn in *.
  split; [| done].
  rewrite Hl2, poolReleases_app. unfold poolReleases at 1. rewrite Hf.
  cbn. by rewrite Hc1, He1.
Qed.

End HandleProperties.

Lemma reported_health_is_impairing_witness :
  exists health,
    (@Pool.Release Vocabulary.noDataEnv
       (@Pool.runOps Vocabulary.noDataEnv Vocabulary.demoHandle
          [Pool.mQueryOne 0%N "SELECT 1" 0%N []] []).1.1
       [Pool.ConnCall (Some 2%N) (Pool.mQueryOne 0%N "SELECT 1" 0%N [])]).1.2
    = [Pool.ConnCall (Some 2%N) (Pool.mQueryOne 0%N "SELECT 1" 0%N []);
       Pool.PoolRelease 1%N (Some 2%N) health].
Proof.
  destruct (@reported_health_is_impairing Vocabulary.noDataEnv
              Vocabulary.demoHandle 1%N
              [Pool.mQueryOne 0%N "SELECT 1" 0%N []] [] _ _ _
              eq_refl eq_refl eq_refl) as (health & Hrel & _).
  exists health. exact Hrel.
Defined.

Lemma impaired_handle_stays_impaired_witness :
  Pool.err (@Pool.runOps Vocabulary.noDataEnv
              {| Pool.pool := Some 1%N;
                 Pool.err := Some (ErrorModel.foreignError 1);
                 Pool.conn := Some 2%N |}
              [Pool.mQueryOne 0%N "SELECT 1" 0%N []] []).1.1 <> None.
Proof.
  apply (@impaired_handle_stays_impaired Vocabulary.noDataEnv
           {| Pool.pool := Some 1%N;
              Pool.err := Some (ErrorModel.foreignError 1);
              Pool.conn := Some 2%N |}
           [Pool.mQueryOne 0%N "SELECT 1" 0%N []] [] _ _ _
           eq_refl ltac:(discriminate) eq_refl).
Defined.

Lemma released_handle_never_reaches_pool_witness :
  Vocabulary.poolReleases
    (@Vocabulary.runCalls Vocabulary.demoEnv Vocabulary.released
       [Vocabulary.Operate (Pool.mExecute 0%N "SELECT 1"); Vocabulary.DoRelease]
       []).1.2 = [].
Proof.
  apply (proj1 (proj2 (@released_handle_never_reaches_pool Vocabulary.demoEnv
           [Vocabulary.Operate (Pool.mExecute 0%N "SELECT 1"); Vocabulary.DoRelease]
           Vocabulary.released [] eq_refl))).
Defined.

Lemma pool_sees_one_release_witness :
  Vocabulary.poolReleases
    (@Vocabulary.runCalls Vocabulary.demoEnv Vocabulary.demoHandle
       (map Vocabulary.Operate [Pool.mExecute 0%N "SELECT 1"] ++
        Vocabulary.DoRelease ::
        [Vocabulary.DoRelease; Vocabulary.Operate (Pool.mExecute 0%N "SELECT 2");
         Vocabulary.DoRelease]) []).1.2
  = [Pool.PoolRelease 1%N (Some 2%N) (Some (ErrorModel.foreignError 1))].
Proof.
  apply (@pool_sees_one_release Vocabulary.demoEnv Vocabulary.demoHandle 1%N
           [Pool.mExecute 0%N "SELECT 1"]
           [Vocabulary.DoRelease; Vocabulary.Operate (Pool.mExecute 0%N "SELECT 2");
            Vocabulary.DoRelease] [] eq_refl).
Defined.

Lemma forwarding_is_transparent_witness :
  exists c1 es,
    @Pool.runOps Vocabulary.demoEnv Vocabulary.demoHandle
      [Pool.mExecute 0%N "SELECT 1"] [] =
    (c1, [Pool.ConnCall (Some 2%N) (Pool.mExecute 0%N "SELECT 1")], es) /\
    es !! 0%nat = Some (Some (ErrorModel.foreignError 1)).
Proof.
  destruct (@forwarding_is_transparent Vocabulary.demoEnv Vocabulary.demoHandle
              [Pool.mExecute 0%N "SELECT 1"] [])
    as (c1 & es & Hrun & _ & _ & _ & Hes).
  exists c1, es. split; [exact Hrun |].
  apply (Hes 0%nat (Pool.mExecute 0%N "SELECT 1") eq_refl).
Defined.

(* ===================================================================== *)
(** ** More on the headers of an error response *)
(* ===================================================================== *)

Section HeaderProperties.
Import GoLib ErrorModel Vocabulary.

Lemma readHeaders_app (pairs1 pairs2 : list (N * string)) :
  readHeaders (pairs1 ++ pairs2) =
    fold_left (fun m kv => <[kv.1 := kv.2]> m) pairs2 (readHeaders pairs1).
Proof. unfold readHeaders. apply fold_left_app. Qed.

Lemma insertAll_lookup_congr (pairs : list (N * string))
    (m1 m2 : gmap N string) (k : N) :
  m1 !! k = m2 !! k ->
  fold_left (fun m kv => <[kv.1 := kv.2]> m) pairs m1 !! k =
  fold_left (fun m kv => <[kv.1 := kv.2]> m) pairs m2 !! k.
Proof.
  revert m1 m2. induction pairs as [| [k' v'] pairs IH]; intros m1 m2 Hm; [done |].
  cbn [fold_left]. apply IH. cbn.
  destruct (decide (k' = k)) as [-> | Hne].
  - by rewrite !lookup_insert_eq.
  - by rewrite !lookup_insert_ne.
Qed.

Lemma readHeaders_Some_elem (pairs : list (N * string)) (k : N) (v : string) :
  readHeaders pairs !! k = Some v -> (k, v) ∈ pairs.
Proof.
  induction pairs as [| [k' v'] pairs IH] using rev_ind; [done |].
  rewrite readHeaders_app. cbn.
  destruct (decide (k' = k)) as [-> | Hne].
  - rewrite lookup_insert_eq. intros [= ->]. apply elem_of_app. right. by left.
  - rewrite lookup_insert_ne by done. intros Hk.
    apply elem_of_app. left. by apply IH.
Qed.

(** X11: Reading the headers keeps, for every id, the value of the last pair
    with that id: a pair read later replaces an earlier one with the same
    id and leaves the other ids alone; and a value found in the map was
    in the payload. *)
Theorem readHeaders_last_pair_wins (pairs : list (N * string)) (k : N)
    (v : string) :
  readHeaders (pairs ++ [(k, v)]) !! k = Some v /\
  (forall k', k' <> k ->
     readHeaders (pairs ++ [(k, v)]) !! k' = readHeaders pairs !! k') /\
  (forall k' v', readHeaders pairs !! k' = Some v' -> (k', v') ∈ pairs).
Proof.
  rewrite readHeaders_app. cbn. split; [apply lookup_insert_eq |]. split.
  - intros k' Hne. by apply lookup_insert_ne.
  - intros k' v'. apply readHeaders_Some_elem.
Qed.

Lemma readHeaders_last_pair_wins_witness :
  readHeaders [(lineStart, "1"%string); (hint, "h"%string)] !! lineStart
  = Some "1"%string.
Proof.
  destruct (readHeaders_last_pair_wins [(lineStart, "1"%string)] hint "h")
    as (_ & Hother & _).
  etrans; [apply (Hother lineStart); discriminate | reflexivity].
Defined.

Lemma decodeError_by_lookups (r1 r2 : errorResponse) (query : string) :
  code r1 = code r2 -> message r1 = message r2 ->
  (forall k, knownHeader k ->
     readHeaders (headerPairs r1) !! k = readHeaders (headerPairs r2) !! k) ->
  decodeError r1 query = decodeError r2 query.
Proof.
  intros Hc Hm Hk. unfold decodeError, positionFromHeaders, positionedMessage.
  rewrite Hc, Hm.
  rewrite (Hk lineStart), (Hk positionStart), (Hk hint);
    unfold knownHeader; auto.
Qed.

(** X12: [decodeError] looks at three header ids only: a pair with any other
    id, wherever it stands among the headers, changes nothing of the
    result (be it an error or a panic). *)
Theorem decodeError_ignores_other_headers (r : errorResponse)
    (pairs1 pairs2 : list (N * string)) (k : N) (v query : string) :
  ~ knownHeader k ->
  decodeError (withHeaders r (pairs1 ++ (k, v) :: pairs2)) query =
  decodeError (withHeaders r (pairs1 ++ pairs2)) query.
Proof.
  intros Hk. apply decodeError_by_lookups; [done | done |].
  intros k' Hk'. cbn [withHeaders headerPairs].
  rewrite !readHeaders_app. cbn [fold_left].
  apply insertAll_lookup_congr. cbn.
  apply lookup_insert_ne. intros ->. by apply Hk.
Qed.

Lemma decodeError_ignores_other_headers_witness :
  decodeError (oops [(lineStart, "2"%string); (0x0002%N, "details"%string);
                     (positionStart, "16"%string)]) twoSelects =
  decodeError (oops [(lineStart, "2"%string); (positionStart, "16"%string)])
              twoSelects.
Proof.
  apply (decodeError_ignores_other_headers (oops [])
           [(lineStart, "2"%string)] [(positionStart, "16"%string)]
           0x0002%N "details" twoSelects).
  intros [Hk | [Hk | Hk]]; discriminate Hk.
Defined.

(** X13: A header value that is not an integer makes [decodeError] panic,
    but only when both position headers are there: the line-start value
    is parsed first, then the position-start value. With one of the two
    headers missing nothing is parsed and nothing panics. *)
Theorem decodeError_malformed_number (r : errorResponse) (query : string) :
  (forall lineS posS,
     readHeaders (headerPairs r) !! lineStart = Some lineS ->
     readHeaders (headerPairs r) !! positionStart = Some posS ->
     (Atoi lineS = None -> decodeError r query = Panic (AtoiFailed lineS)) /\
     (forall l, Atoi lineS = Some l -> Atoi posS = None ->
                decodeError r query = Panic (AtoiFailed posS))) /\
  (readHeaders (headerPairs r) !! lineStart = None \/
   readHeaders (headerPairs r) !! positionStart = None ->
   decodeError r query = Ret (errorFromCode (code r) (message r))).
Proof.
  split.
  - intros lineS posS Hl Hp. unfold decodeError, positionFromHeaders, atoiOrPanic.
    rewrite Hl, Hp. split.
    + by intros ->.
    + by intros l -> ->.
  - intros Hmiss. unfold decodeError.
    by rewrite (positionFromHeaders_missing _ Hmiss).
Qed.

Lemma decodeError_malformed_number_witness :
  decodeError (oops [(lineStart, "2"%string); (positionStart, "x"%string)])
              twoSelects = Panic (AtoiFailed "x") /\
  decodeError (oops [(lineStart, "two"%string)]) twoSelects
  = Ret (errorFromCode 1 "oops").
Proof.
  split.
  - apply (proj2 (proj1 (decodeError_malformed_number
                    (oops [(lineStart, "2"%string); (positionStart, "x"%string)])
                    twoSelects) "2"%string "x"%string eq_refl eq_refl)
             2 eq_refl eq_refl).
  - apply (proj2 (decodeError_malformed_number
                    (oops [(lineStart, "two"%string)]) twoSelects)).
    right. reflexivity.
Defined.

End HeaderProperties.

(* ===================================================================== *)
(** ** Where the caret lands *)
(* ===================================================================== *)

Section CaretProperties.
Import GoLib ErrorModel Vocabulary.

Lemma Split_cons (q : string) : exists l ls, Split q newline = l :: ls.
Proof.
  destruct q as [| a q]; cbn [Split]; [by eexists _, _ |].
  destruct (Ascii.eqb a newline); [by eexists _, _ |].
  destruct (Split q newline); by eexists _, _.
Qed.

Lemma precedingBytes_0 (lines : list string) : precedingBytes lines 0 = 0.
Proof. reflexivity. Qed.

Lemma precedingBytes_S (l : string) (ls : list string) (k : nat) :
  precedingBytes (l :: ls) (S k) = 1 + len l + precedingBytes ls k.
Proof. reflexivity. Qed.

Lemma to_nat_succ (z : Z) : 0 <= z -> Z.to_nat (1 + z) = S (Z.to_nat z).
Proof. lia. Qed.

(** A line of a text starts right after the bytes of the lines before
    it, and the text before an offset on the line has as many newlines
    as there are lines before it. *)
Lemma Split_line_at (q : string) :
  forall (k : nat) (line : string) (off : nat),
    nth_error (Split q newline) k = Some line ->
    (off <= String.length line)%nat ->
    let start := Z.to_nat (precedingBytes (Split q newline) k) in
    newlinesIn (prefix q (start + off)) = k /\
    (start + off <= String.length q)%nat /\
    substring start off q = prefix line off.
Proof.
  induction q as [| a q IH]; intros k line off Hk Hoff.
  - destruct k as [| [| k]]; cbn in Hk; simplify_eq.
    cbn in Hoff. assert (off = 0%nat) as -> by lia. done.
  - cbn [Split] in *. destruct (Ascii.eqb a newline) eqn:Ha.
    + destruct k as [| k]; cbn [nth_error] in Hk; simplify_eq.
      * cbn in Hoff. assert (off = 0%nat) as -> by lia.
        rewrite precedingBytes_0. cbn zeta.
        change (Z.to_nat 0) with 0%nat.
        cbn [Nat.add prefix newlinesIn substring String.length].
        split; [done | split; [lia | done]].
      * rewrite precedingBytes_S. change (len "") with 0.
        pose proof (precedingBytes_nonneg (Split q newline) k) as Hp.
        replace (1 + 0 + precedingBytes (Split q newline) k)
          with (1 + precedingBytes (Split q newline) k) by lia.
        rewrite to_nat_succ by done. cbn zeta.
        destruct (IH k line off Hk Hoff) as (Hn & Hb & Hs).
        cbn [Nat.add prefix newlinesIn substring String.length].
        rewrite Ha. split; [by rewrite Hn | split; [lia | done]].
    + destruct (Split q newline) as [| l0 ls] eqn:Hsplit.
      { destruct (Split_cons q) as (? & ? & ?). congruence. }
      destruct k as [| k]; cbn [nth_error] in Hk; simplify_eq.
      * rewrite precedingBytes_0. cbn zeta.
        change (Z.to_nat 0) with 0%nat. cbn [Nat.add].
        destruct off as [| off].
        { cbn [prefix newlinesIn substring String.length].
          split; [done | split; [lia | done]]. }
        cbn [String.length] in Hoff.
        destruct (IH 0%nat l0 off eq_refl ltac:(lia)) as (Hn & Hb & Hs).
        rewrite precedingBytes_0 in Hn, Hb, Hs.
        change (Z.to_nat 0) with 0%nat in *. cbn [Nat.add] in *.
        cbn [prefix newlinesIn substring String.length]. rewrite Ha.
        split; [done | split; [lia | by rewrite Hs]].
      * rewrite precedingBytes_S, len_cons.
        pose proof (precedingBytes_nonneg ls k) as Hp.
        pose proof (len_nonneg l0) as Hl0.
        replace (1 + (1 + len l0) + precedingBytes ls k)
          with (1 + (1 + len l0 + precedingBytes ls k)) by lia.
        rewrite to_nat_succ by lia. cbn zeta.
        destruct (IH (S k) line off Hk Hoff) as (Hn & Hb & Hs).
        rewrite precedingBytes_S in Hn, Hb, Hs.
        cbn [Nat.add prefix newlinesIn substring String.length].
        rewrite Ha. split; [done | split; [lia | done]].
Qed.

(** The line that holds a byte offset of a text: it is the line numbered
    by the newlines before the offset, and the offset falls on it. *)
Lemma Split_line_of (q : string) :
  forall b : nat,
    (b <= String.length q)%nat ->
    exists line,
      nth_error (Split q newline) (newlinesIn (prefix q b)) = Some line /\
      precedingBytes (Split q newline) (newlinesIn (prefix q b)) <= Z.of_nat b
        <= precedingBytes (Split q newline) (newlinesIn (prefix q b)) + len line.
Proof.
  induction q as [| a q IH]; intros b Hb.
  - cbn in Hb. assert (b = 0%nat) as -> by lia. exists ""%string. by cbn.
  - destruct b as [| b].
    + cbn [prefix newlinesIn]. destruct (Split_cons (String a q)) as (l & ls & ->).
      exists l. cbn [nth_error]. rewrite precedingBytes_0.
      pose proof (len_nonneg l). split; [done | lia].
    + cbn [String.length] in Hb. destruct (IH b ltac:(lia)) as (line & Hline & Hlo & Hhi).
      cbn [prefix newlinesIn Split]. destruct (Ascii.eqb a newline).
      * exists line. cbn [nth_error]. rewrite precedingBytes_S.
        change (len "") with 0. split; [done | lia].
      * destruct (Split q newline) as [| l0 ls] eqn:Hsplit.
        { destruct (Split_cons q) as (? & ? & ?). congruence. }
        destruct (newlinesIn (prefix q b)) as [| k].
        -- cbn [nth_error] in *. simplify_eq. eexists. split; [done |].
           rewrite precedingBytes_0 in *. rewrite len_cons. lia.
        -- cbn [nth_error] in *. exists line. split; [done |].
           rewrite precedingBytes_S in *. rewrite len_cons. lia.
Qed.

Lemma len_length (s : string) : len s = Z.of_nat (String.length s).
Proof. reflexivity. Qed.

Lemma prefix_length_le (s : string) (n : nat) :
  (n <= String.length s)%nat -> String.length (prefix s n) = n.
Proof.
  revert n. induction s as [| a s IH]; intros [| n] Hn; cbn in *; try lia.
  rewrite IH; lia.
Qed.

(** The headers' values point inside the query exactly when the position
    is a byte offset of the query and the line number is that of the line
    holding it. *)
Lemma pointsInside_iff_consistent (query : string) (l b : Z) :
  (exists line0, pointsInside query l b line0) <->
  0 <= b <= len query /\ l = lineOfByte query b.
Proof.
  unfold pointsInside, lineOffset, lineOfByte. split.
  - intros (line0 & Hl & Hline & Hoff).
    pose proof (precedingBytes_nonneg (Split query newline) (Z.to_nat (l - 1))) as Hp.
    destruct (Split_line_at query (Z.to_nat (l - 1)) line0
                (Z.to_nat (b - precedingBytes (Split query newline) (Z.to_nat (l - 1))))
                Hline) as (Hn & Hb & _).
    { rewrite len_length in Hoff. lia. }
    cbn zeta in Hn, Hb.
    replace (Z.to_nat (precedingBytes (Split query newline) (Z.to_nat (l - 1))) +
             Z.to_nat (b - precedingBytes (Split query newline) (Z.to_nat (l - 1))))%nat
      with (Z.to_nat b) in Hn, Hb by lia.
    rewrite Hn, len_length. lia.
  - intros [Hb ->].
    destruct (Split_line_of query (Z.to_nat b)) as (line & Hline & Hlo & Hhi).
    { rewrite len_length in Hb. lia. }
    exists line.
    replace (Z.to_nat (1 + Z.of_nat (newlinesIn (prefix query (Z.to_nat b))) - 1))
      with (newlinesIn (prefix query (Z.to_nat b))) by lia.
    split; [lia |]. split; [done |]. lia.
Qed.

Lemma lastLineOf_no_newline (s : string) :
  newlinesIn s = 0%nat -> lastLineOf s = s.
Proof.
  destruct s as [| a r]; [done |]. cbn [newlinesIn lastLineOf].
  destruct (Ascii.eqb a newline); [done |]. by intros ->.
Qed.

(** What precedes an offset on a line of a text, taken from the text:
    it is what follows the last newline before that offset. *)
Lemma lastLineOf_prefix (q : string) :
  forall (k : nat) (line : string) (off : nat),
    nth_error (Split q newline) k = Some line ->
    (off <= String.length line)%nat ->
    lastLineOf
      (prefix q (Z.to_nat (precedingBytes (Split q newline) k) + off))
    = prefix line off.
Proof.
  induction q as [| a q IH]; intros k line off Hk Hoff.
  - destruct k as [| [| k]]; cbn in Hk; simplify_eq.
    cbn in Hoff. by assert (off = 0%nat) as -> by lia.
  - pose proof (Split_line_at q) as Hat.
    cbn [Split] in *. destruct (Ascii.eqb a newline) eqn:Ha.
    + destruct k as [| k]; cbn [nth_error] in Hk; simplify_eq.
      * cbn in Hoff. by assert (off = 0%nat) as -> by lia.
      * rewrite precedingBytes_S. change (len "") with 0.
        pose proof (precedingBytes_nonneg (Split q newline) k) as Hp.
        replace (1 + 0 + precedingBytes (Split q newline) k)
          with (1 + precedingBytes (Split q newline) k) by lia.
        rewrite to_nat_succ by done.
        destruct (Hat k line off Hk Hoff) as (Hn & _ & _). cbn zeta in Hn.
        specialize (IH k line off Hk Hoff).
        cbn [Nat.add prefix lastLineOf]. rewrite Hn, Ha.
        destruct k as [| k]; [| done].
        rewrite <- IH. symmetry. by apply lastLineOf_no_newline.
    + destruct (Split q newline) as [| l0 ls] eqn:Hsplit.
      { destruct (Split_cons q) as (? & ? & ?). congruence. }
      destruct k as [| k]; cbn [nth_error] in Hk; simplify_eq.
      * rewrite precedingBytes_0. change (Z.to_nat 0) with 0%nat.
        cbn [Nat.add]. destruct off as [| off]; [done |].
        cbn [String.length] in Hoff.
        destruct (Hat 0%nat l0 off eq_refl ltac:(lia)) as (Hn & _ & _).
        specialize (IH 0%nat l0 off eq_refl ltac:(lia)).
        rewrite precedingBytes_0 in Hn, IH.
        change (Z.to_nat 0) with 0%nat in *. cbn [Nat.add] in *.
        cbn [prefix lastLineOf]. rewrite Hn, Ha.
        rewrite <- IH. f_equal. symmetry. by apply lastLineOf_no_newline.
      * rewrite precedingBytes_S, len_cons.
        pose proof (precedingBytes_nonneg ls k) as Hp.
        pose proof (len_nonneg l0) as Hl0.
        replace (1 + (1 + len l0) + precedingBytes ls k)
          with (1 + (1 + len l0 + precedingBytes ls k)) by lia.
        rewrite to_nat_succ by lia.
        destruct (Hat (S k) line off Hk Hoff) as (Hn & _ & _).
        specialize (IH (S k) line off Hk Hoff).
        rewrite precedingBytes_S in Hn, IH. cbn zeta in Hn.
        cbn [Nat.add prefix lastLineOf]. by rewrite Hn.
Qed.

(** X15: For headers that point inside the query, the loop over the
    preceding lines leaves in [byteNo] the number of bytes between the
    last newline before the position header's offset and that offset,
    and the runes [decodeError] counts for the column are those of that
    stretch of the query, with its tabs replaced by spaces. *)
Theorem caret_counts_from_line_start (query : string) (l b : Z)
    (line0 : string) :
  minInt <= l <= maxInt -> minInt <= b <= maxInt ->
  pointsInside query l b line0 ->
  let stretch := lastLineOf (prefix query (Z.to_nat b)) in
  skipLines (Split query newline) (l - 1) b = len stretch /\
  locateCaret query {| lineNo := l - 1; byteNo := b |} =
    Ret (retabbed line0, RuneCountInString (retabbed stretch)).
Proof.
  intros Hl Hb Hin stretch.
  destruct (locateCaret_inside query l b line0 Hl Hb Hin) as (_ & Hskip & Hcaret).
  destruct Hin as (Hl1 & Hline & Hoff).
  pose proof (precedingBytes_nonneg (Split query newline) (Z.to_nat (l - 1))) as Hp.
  assert (Hstretch : stretch = prefix line0 (Z.to_nat (lineOffset query l b))).
  { unfold stretch.
    rewrite <- (lastLineOf_prefix query (Z.to_nat (l - 1)) line0
                  (Z.to_nat (lineOffset query l b)) Hline).
    - f_equal. f_equal. unfold lineOffset in *. lia.
    - rewrite len_length in Hoff. lia. }
  split.
  - rewrite Hskip, Hstretch, len_length, prefix_length_le.
    + lia.
    + rewrite len_length in Hoff. lia.
  - rewrite Hcaret, Hstretch. rewrite <- !ReplaceAll_retabbed.
    by rewrite RuneCountInString_ReplaceAll.
Qed.

Lemma caret_counts_from_line_start_witness :
  locateCaret twoSelects {| lineNo := 2 - 1; byteNo := 16 |}
  = Ret ("SELECT x"%string, 7%nat).
Proof.
  apply (caret_counts_from_line_start twoSelects 2 16 "SELECT x").
  - unfold minInt, maxInt. lia.
  - unfold minInt, maxInt. lia.
  - split; [lia |]. split; [reflexivity |]. by vm_compute.
Defined.

(** X16: With both position headers holding integers, [decodeError] returns
    exactly when the position is a byte offset of the query text (its end
    included) and the line number is the one of the line that holds that
    offset, counting lines from one; in every other case it panics. *)
Theorem decodeError_returns_iff_consistent (r : errorResponse)
    (query lineS posS : string) (l b : Z) :
  readHeaders (headerPairs r) !! lineStart = Some lineS ->
  readHeaders (headerPairs r) !! positionStart = Some posS ->
  Atoi lineS = Some l -> Atoi posS = Some b ->
  len query < maxInt ->
  (returns (decodeError r query) <->
   0 <= b <= len query /\ l = lineOfByte query b) /\
  (panics (decodeError r query) <->
   ~ (0 <= b <= len query /\ l = lineOfByte query b)).
Proof.
  intros Hls Hps Hal Hab Hq.
  assert (Hret : returns (decodeError r query) <->
                 0 <= b <= len query /\ l = lineOfByte query b).
  { rewrite <- pointsInside_iff_consistent. split.
    - intros [res Hres].
      apply (locateCaret_returns query l b); eauto using Atoi_range.
      unfold decodeError in Hres.
      rewrite (positionFromHeaders_both _ _ _ _ _ Hls Hps Hal Hab) in Hres.
      cbn [mbind outcome_bind negb] in Hres. unfold positionedMessage in Hres.
      destruct (locateCaret query _) as [res' | p]; [by eexists | done].
    - intros [line0 Hin]. eexists.
      apply (decodeError_inside r query lineS posS l b line0 Hls Hps Hal Hab Hin). }
  split; [done |]. rewrite <- Hret. unfold returns, panics.
  destruct (decodeError r query) as [e | p].
  - split; [intros [? ?]; done | intros Hno; exfalso; apply Hno; by eexists].
  - split; [intros _ [? ?]; done | intros _; by eexists].
Qed.

Lemma decodeError_returns_iff_consistent_witness :
  returns (decodeError (oops [(lineStart, "2"%string);
                              (positionStart, "17"%string)]) twoSelects) /\
  panics (decodeError (oops [(lineStart, "1"%string);
                             (positionStart, "17"%string)]) twoSelects).
Proof.
  split.
  - apply (proj1 (decodeError_returns_iff_consistent
                    (oops [(lineStart, "2"%string); (positionStart, "17"%string)])
                    twoSelects "2" "17" 2 17
                    eq_refl eq_refl eq_refl eq_refl eq_refl)).
    split; [by vm_compute | reflexivity].
  - apply (proj2 (decodeError_returns_iff_consistent
                    (oops [(lineStart, "1"%string); (positionStart, "17"%string)])
                    twoSelects "1" "17" 1 17
                    eq_refl eq_refl eq_refl eq_refl eq_refl)).
    intros [_ Hl]. discriminate Hl.
Defined.

End CaretProperties.

(* ===================================================================== *)
(** ** The printed line and the column *)
(* ===================================================================== *)

Section ColumnProperties.
Import GoLib ErrorModel Vocabulary.

Lemma stepSize_le_4 (s : list N) : (stepSize s <= 4)%nat.
Proof.
  destruct s as [| c rest]; [cbn; lia |].
  unfold stepSize. destruct (c <? RuneSelf)%N eqn:Hc; [lia |].
  apply N.ltb_ge in Hc. unfold RuneSelf in Hc.
  destruct (first_values c Hc)
    as [-> | [-> | [-> | [-> | [-> | [-> | [-> | ->]]]]]]];
    unfold xx, s1, s2, s3, s4, s5, s6, s7;
    repeat match goal with
    | |- context [N.to_nat (N.land ?a ?b)] =>
        let v := eval vm_compute in (N.to_nat (N.land a b)) in
        change (N.to_nat (N.land a b)) with v
    end;
    repeat case_match; lia.
Qed.

Lemma runeCountFrom_bounds (s : list N) :
  forall skip : nat,
    (runeCountFrom skip s <= length s)%nat /\
    (length s <= skip + 4 * runeCountFrom skip s)%nat.
Proof.
  induction s as [| c s IH]; intros skip; [cbn; lia |].
  cbn [runeCountFrom length]. destruct skip as [| k].
  - specialize (IH (stepSize (c :: s) - 1)%nat).
    pose proof (stepSize_le_4 (c :: s)). lia.
  - specialize (IH k). lia.
Qed.

Lemma runeCountFrom_ascii (s : list N) :
  Forall (fun n => (n < 0x80)%N) s -> runeCountFrom 0 s = length s.
Proof.
  induction 1 as [| c s Hc _ IH]; [done |].
  cbn [runeCountFrom length]. unfold stepSize, RuneSelf.
  rewrite (proj2 (N.ltb_lt c 0x80)) by done. cbn [Nat.sub]. by rewrite IH.
Qed.

Lemma bytes_length (s : string) : length (bytes s) = String.length s.
Proof.
  unfold bytes. rewrite length_map.
  induction s as [| a s IH]; [done |]. cbn. by rewrite IH.
Qed.

Lemma prefix_length (s : string) (n : nat) :
  (n <= String.length s)%nat -> String.length (prefix s n) = n.
Proof.
  revert n. induction s as [| a s IH]; intros [| n] Hn; cbn in *; try lia.
  rewrite IH; lia.
Qed.

Lemma tabFree_ReplaceAll (s : string) : tabFree (ReplaceAll s tab space) = true.
Proof.
  induction s as [| a s IH]; [done |].
  cbn [ReplaceAll tabFree]. rewrite IH.
  by destruct (Ascii.eqb_spec a tab) as [-> | Hne];
    [| rewrite (proj2 (Ascii.eqb_neq a tab) Hne)].
Qed.

Lemma get_ReplaceAll (s : string) (i : nat) :
  String.get i (ReplaceAll s tab space) = shown <$> String.get i s.
Proof.
  revert i. induction s as [| a s IH]; intros i; [done |].
  cbn [ReplaceAll]. destruct i as [| i]; [done |]. cbn [String.get]. apply IH.
Qed.

(** X17: For headers that point inside the query, the line that is printed
    has the length of the source line, holds no tab and differs from the
    source line only where that has a tab (shown as a space), so that the
    caret stays aligned; and the number of spaces before the caret is at
    most the byte offset on the line and at least a quarter of it, and is
    the byte offset itself when the bytes before it are ASCII. *)
Theorem caret_column_bounds (query : string) (l b : Z) (line0 : string) :
  minInt <= l <= maxInt -> minInt <= b <= maxInt ->
  pointsInside query l b line0 ->
  exists line n,
    locateCaret query {| lineNo := l - 1; byteNo := b |} = Ret (line, n) /\
    len line = len line0 /\
    tabFree line = true /\
    (forall i, String.get i line = shown <$> String.get i line0) /\
    Z.of_nat n <= lineOffset query l b <= 4 * Z.of_nat n /\
    (asciiOnly (prefix line0 (Z.to_nat (lineOffset query l b))) ->
     Z.of_nat n = lineOffset query l b).
Proof.
  intros Hl Hb Hin.
  destruct (locateCaret_inside query l b line0 Hl Hb Hin) as (_ & _ & Hcaret).
  destruct Hin as (_ & _ & Hoff). rewrite len_length in Hoff.
  eexists _, _. split; [exact Hcaret |].
  split; [apply len_ReplaceAll |]. split; [apply tabFree_ReplaceAll |].
  split; [apply get_ReplaceAll |].
  assert (Hlen : length (bytes (prefix line0 (Z.to_nat (lineOffset query l b))))
                 = Z.to_nat (lineOffset query l b)).
  { rewrite bytes_length, prefix_length; lia. }
  unfold RuneCountInString. split.
  - destruct (runeCountFrom_bounds
                (bytes (prefix line0 (Z.to_nat (lineOffset query l b)))) 0).
    lia.
  - intros Hascii. rewrite runeCountFrom_ascii by done. lia.
Qed.

Lemma caret_column_bounds_witness :
  exists line n,
    locateCaret twoSelects {| lineNo := 2 - 1; byteNo := 16 |} = Ret (line, n) /\
    Z.of_nat n = lineOffset twoSelects 2 16.
Proof.
  destruct (caret_column_bounds twoSelects 2 16 "SELECT x")
    as (line & n & Hc & _ & _ & _ & _ & Hascii).
  - unfold minInt, maxInt. lia.
  - unfold minInt, maxInt. lia.
  - split; [lia |]. split; [reflexivity |]. by vm_compute.
  - exists line, n. split; [exact Hc |]. apply Hascii.
    unfold asciiOnly. vm_compute. repeat constructor.
Defined.

End ColumnProperties.

(* ===================================================================== *)
(** ** More on wrapAll and firstError *)
(* ===================================================================== *)

Section CombiningProperties.
Import GoLib ErrorModel Vocabulary.
Context `{LeafErrors}.

Lemma nonNil_app (xs ys : list goerror) :
  nonNil (xs ++ ys) = nonNil xs ++ nonNil ys.
Proof. unfold nonNil. apply omap_app. Qed.

Lemma nonNil_Some (es : list error) : nonNil (map Some es) = es.
Proof.
  unfold nonNil. induction es as [| e es IH]; [done |]. cbn. by rewrite IH.
Qed.

Lemma nonNil_nil_iff (errs : list goerror) :
  nonNil errs = [] <-> forall e, e ∈ errs -> e = None.
Proof.
  unfold nonNil. induction errs as [| [x |] errs IH]; cbn.
  - split; [| done]. intros _ e He. by apply elem_of_nil in He.
  - split; [done |]. intros Hall. discriminate (Hall (Some x)). by left.
  - rewrite IH. split.
    + intros Hall e He. apply elem_of_cons in He as [-> | He]; auto.
    + intros Hall e He. apply Hall. by right.
Qed.

Lemma wrapAll_by_nonNil (xs ys : list goerror) :
  nonNil xs = nonNil ys -> wrapAll xs = wrapAll ys.
Proof. unfold wrapAll. rewrite !collectErrs_nonNil. by intros ->. Qed.

(** X18: Nil errors do not count: [wrapAll] returns nil exactly when every
    error it is given is nil, its result depends on the non-nil errors
    only, and a nil anywhere in the list changes nothing. *)
Theorem wrapAll_ignores_nil (errs xs ys : list goerror) :
  (wrapAll errs = None <-> forall e, e ∈ errs -> e = None) /\
  wrapAll errs = wrapAll (map Some (nonNil errs)) /\
  wrapAll (xs ++ None :: ys) = wrapAll (xs ++ ys).
Proof.
  split; [| split].
  - rewrite <- nonNil_nil_iff. unfold wrapAll. rewrite collectErrs_nonNil.
    destruct (nonNil errs) as [| e0 [| e1 rest]]; split; done.
  - apply wrapAll_by_nonNil. by rewrite nonNil_Some.
  - apply wrapAll_by_nonNil. by rewrite !nonNil_app.
Qed.

Lemma concat_app (sep : string) (l1 l2 : list string) :
  l1 <> [] -> l2 <> [] ->
  String.concat sep (l1 ++ l2) =
    (String.concat sep l1 ++ sep ++ String.concat sep l2)%string.
Proof.
  intros H1 H2. induction l1 as [| x [| y l1] IH]; [done | |].
  - destruct l2 as [| z l2]; [done |]. reflexivity.
  - change (String.concat sep ((x :: y :: l1) ++ l2))
      with (x ++ sep ++ String.concat sep ((y :: l1) ++ l2))%string.
    rewrite IH by done.
    change (String.concat sep (x :: y :: l1))
      with (x ++ sep ++ String.concat sep (y :: l1))%string.
    by rewrite !append_assoc.
Qed.

Lemma wrapAll_message (errs : list goerror) :
  messageOf (wrapAll errs) =
    match nonNil errs with
    | [] => None
    | es => Some (String.concat "; " (map Error es))
    end.
Proof.
  unfold wrapAll. rewrite collectErrs_nonNil.
  destruct (nonNil errs) as [| e0 [| e1 rest]]; [done | done |].
  pose proof (join_from (e1 :: rest) e0 "") as Hjoin.
  change (fold_left (fun m x => (m ++ "; " ++ Error x)%string) (e1 :: rest) (Error e0)
          = String.concat "; " (map Error (e0 :: e1 :: rest))) in Hjoin.
  cbn [messageOf Error]. by rewrite Hjoin.
Qed.

(** X19: The message of what [wrapAll] returns is the messages of the non-nil
    errors joined by "; ", for any number of them; and wrapping in two
    steps gives the same message as wrapping at once: the message of
    [wrapAll(wrapAll(xs...), wrapAll(ys...))] is that of
    [wrapAll(xs..., ys...)]. *)
Theorem wrapAll_message_is_flat (xs ys : list goerror) :
  (forall errs e, wrapAll errs = Some e ->
     Error e = String.concat "; " (map Error (nonNil errs))) /\
  messageOf (wrapAll [wrapAll xs; wrapAll ys]) = messageOf (wrapAll (xs ++ ys)).
Proof.
  split.
  - intros errs e He. pose proof (wrapAll_message errs) as Hm.
    rewrite He in Hm. cbn in Hm.
    destruct (nonNil errs); by simplify_eq.
  - assert (Hnone : forall errs, nonNil errs = [] -> wrapAll errs = None).
    { intros errs He. pose proof (wrapAll_message errs) as Hm.
      rewrite He in Hm. by destruct (wrapAll errs). }
    assert (Hsome : forall errs e0 es, nonNil errs = e0 :: es ->
              exists e, wrapAll errs = Some e /\
                        Error e = String.concat "; " (map Error (e0 :: es))).
    { intros errs e0 es He. pose proof (wrapAll_message errs) as Hm.
      rewrite He in Hm. destruct (wrapAll errs) as [e |]; [| done].
      exists e. split; [done |]. by injection Hm. }
    rewrite (wrapAll_message (xs ++ ys)), nonNil_app, wrapAll_message.
    destruct (nonNil xs) as [| x0 xs'] eqn:Hxs;
      destruct (nonNil ys) as [| y0 ys'] eqn:Hys.
    + by rewrite (Hnone xs), (Hnone ys).
    + rewrite (Hnone xs) by done.
      destruct (Hsome ys y0 ys' Hys) as (ey & -> & Hey).
      change (nonNil [None; Some ey]) with [ey]. cbn [app]. cbv beta match.
      change (String.concat "; " (map Error [ey])) with (Error ey).
      by rewrite Hey.
    + rewrite (Hnone ys) by done.
      destruct (Hsome xs x0 xs' Hxs) as (ex & -> & Hex).
      change (nonNil [Some ex; None]) with [ex]. rewrite app_nil_r.
      cbv beta match.
      change (String.concat "; " (map Error [ex])) with (Error ex).
      by rewrite Hex.
    + destruct (Hsome xs x0 xs' Hxs) as (ex & -> & Hex).
      destruct (Hsome ys y0 ys' Hys) as (ey & -> & Hey).
      change (nonNil [Some ex; Some ey]) with [ex; ey]. cbn [app].
      cbv beta match.
      change (String.concat "; " (map Error [ex; ey]))
        with (Error ex ++ "; " ++ Error ey)%string.
      change (x0 :: xs' ++ y0 :: ys') with ((x0 :: xs') ++ (y0 :: ys')).
      rewrite Hex, Hey, map_app.
      by rewrite (concat_app "; " (map Error (x0 :: xs')) (map Error (y0 :: ys'))).
Qed.

(** X20: [firstError] is associative with nil as its unit; folded over a list
    it gives the first non-nil error; and that is nil exactly when
    [wrapAll] of the list is nil, and is what [wrapAll] returns when just
    one error of the list is not nil. *)
Theorem firstError_picks_first (a b c : goerror) (errs : list goerror) :
  firstError a (firstError b c) = firstError (firstError a b) c /\
  firstError None a = a /\ firstError a None = a /\
  fold_right firstError None errs = head (nonNil errs) /\
  (fold_right firstError None errs = None <-> wrapAll errs = None) /\
  (length (nonNil errs) = 1%nat ->
   wrapAll errs = fold_right firstError None errs).
Proof.
  assert (Hfold : fold_right firstError None errs = head (nonNil errs)).
  { induction errs as [| [x |] errs IH]; [done | done |]. cbn. exact IH. }
  split; [by destruct a |]. split; [done |]. split; [by destruct a |].
  split; [done |]. rewrite Hfold. unfold wrapAll. rewrite collectErrs_nonNil.
  split.
  - destruct (nonNil errs) as [| e0 [| e1 rest]]; split; done.
  - destruct (nonNil errs) as [| e0 [| e1 rest]]; done.
Qed.

End CombiningProperties.

Lemma wrapAll_ignores_nil_witness :
  @ErrorModel.wrapAll Vocabulary.plainText [None; None] = None.
Proof.
  apply (proj1 (@wrapAll_ignores_nil Vocabulary.plainText [None; None] [] [])).
  intros e He. apply elem_of_cons in He as [-> | He]; [done |].
  by apply list_elem_of_singleton in He.
Defined.

Lemma wrapAll_message_is_flat_witness :
  @ErrorModel.Error Vocabulary.plainText
    (ErrorModel.wrappedManyError "a; b" [ErrorModel.interfaceError "a"; ErrorModel.noDataError "b"])
  = String.concat "; " ["a"; "b"]%string.
Proof.
  apply (proj1 (@wrapAll_message_is_flat Vocabulary.plainText [] [])
           [Some (ErrorModel.interfaceError "a"); None; Some (ErrorModel.noDataError "b")]
           (ErrorModel.wrappedManyError "a; b" [ErrorModel.interfaceError "a"; ErrorModel.noDataError "b"])
           eq_refl).
Defined.

Lemma firstError_picks_first_witness :
  @ErrorModel.wrapAll Vocabulary.plainText [None; Some (ErrorModel.noDataError "zero results")]
  = fold_right ErrorModel.firstError None [None; Some (ErrorModel.noDataError "zero results")].
Proof.
  apply (proj2 (proj2 (proj2 (proj2 (proj2
           (@firstError_picks_first Vocabulary.plainText None None None
              [None; Some (ErrorModel.noDataError "zero results")])))))).
  reflexivity.
Defined.
